(** * Treemap (tmTreemap.h): nodes, flag invalidation, moves, joining

    A shallow embedding of the parts of [TmTreemap] and [TmNode] whose code
    is in [tmTreemap.h] ([getNode], [resetFlagUpToRoot], the empty [Move]),
    together with models of operations that the header only declares and
    documents ([Move::tryIt], [Move::undoIt], [effectOfJoining]).

    Pointers are addresses into a store; [None] is the C++ [NULL].  A
    dereference of [NULL] or of an address that holds no object, and a failed
    [assert], are the outcome [Fault]. *)

From stdpp Require Import gmap list.
From Stdlib Require Import ZArith Lia.

Local Open Scope Z_scope.

(** ** Outcomes of a call *)

Inductive result (A : Type) : Type :=
  | Done (a : A)
  | Fault
  | OutOfFuel.
Arguments Done {A} a.
Arguments Fault {A}.
Arguments OutOfFuel {A}.

#[global] Instance result_ret : MRet result := λ A a, Done a.
#[global] Instance result_bind : MBind result := λ A B k r,
  match r with
  | Done a => k a
  | Fault => Fault
  | OutOfFuel => OutOfFuel
  end.

Definition deref {A : Type} (o : option A) : result A :=
  match o with
  | Some a => Done a
  | None => Fault
  end.

(** ** Data *)

Definition addr := nat.

(** The fields of [TmNode] that the code of [tmTreemap.h] reads and writes
    ([tmNode.h] declares the class): the flag word [status], the links
    [parent] and [child[2]], the back pointer [tree] to the owning treemap
    and the arena slot [index]; and, for a leaf, the feature ids of its
    Gaussian. *)
Record TmNode : Type := mkNode {
  index : Z;
  status : Z;
  parent : option addr;
  child0 : option addr;
  child1 : option addr;
  tree : option addr;
  gaussianFeature : list Z
}.

Definition setStatus (s : Z) (n : TmNode) : TmNode :=
  mkNode (index n) s (parent n) (child0 n) (child1 n) (tree n)
    (gaussianFeature n).
Definition setParent (p : option addr) (n : TmNode) : TmNode :=
  mkNode (index n) (status n) p (child0 n) (child1 n) (tree n)
    (gaussianFeature n).
Definition setChildren (c0 c1 : option addr) (n : TmNode) : TmNode :=
  mkNode (index n) (status n) (parent n) c0 c1 (tree n)
    (gaussianFeature n).

(** [TmTreemap]: the members that the modelled operations use. *)
Record TmTreemap : Type := mkTreemap {
  root : option addr;
  node : list (option addr);
  unusedNodes : list Z;
  isEstimateValid : bool;
  isGaussianValidValid : bool
}.

Definition setIsEstimateValid (b : bool) (t : TmTreemap) : TmTreemap :=
  mkTreemap (root t) (node t) (unusedNodes t) b (isGaussianValidValid t).
Definition setRoot (r : option addr) (t : TmTreemap) : TmTreemap :=
  mkTreemap r (node t) (unusedNodes t) (isEstimateValid t)
    (isGaussianValidValid t).

(** The store: every [TmNode] and every [TmTreemap] object by address. *)
Record Memory : Type := mkMemory {
  nodes : gmap addr TmNode;
  treemaps : gmap addr TmTreemap
}.

(** ** 32-bit [int] *)

Definition INT_MAX : Z := 2 ^ 31 - 1.
Definition INT_MIN : Z := - 2 ^ 31.
Definition isInt (z : Z) : Prop := INT_MIN <= z <= INT_MAX.

(** The conversion [(int) x]: reduction modulo [2^32] into the signed
    range. *)
Definition toInt (z : Z) : Z := (z + 2 ^ 31) mod 2 ^ 32 - 2 ^ 31.

(** ** [TmNode::isFlag] and [TmNode::resetFlagUpToRoot] *)

(** [(n->status & flag) != 0] *)
Definition isFlag (flag : Z) (n : TmNode) : bool :=
  negb (Z.land (status n) flag =? 0).

(** [n->status &= ~flag] *)
Definition clearFlag (flag : Z) (n : TmNode) : TmNode :=
  setStatus (Z.land (status n) (Z.lnot flag)) n.

(** The [while] loop of [resetFlagUpToRoot]: [n] is the loop variable, [h]
    the node store.  One unit of fuel is spent for each pass through the
    body. *)
Fixpoint resetFlagLoop (fuel : nat) (flag : Z) (n : option addr)
    (h : gmap addr TmNode) : result (gmap addr TmNode) :=
  match n with
  | None => Done h
  | Some a =>
      nd ← deref (h !! a);
      if isFlag flag nd then
        match fuel with
        | O => OutOfFuel
        | S fuel' =>
            resetFlagLoop fuel' flag (parent nd) (<[a := clearFlag flag nd]> h)
        end
      else Done h
  end.

Section Flags.

(** The flag constants are declared in [tmNode.h]; they are parameters
    here. *)
Variable IS_GAUSSIAN_VALID : Z.

(** [inline void TmNode::resetFlagUpToRoot (int flag)].  The loop clears a
    set flag at each pass, so it runs at most once per node of the store. *)
Definition resetFlagUpToRoot (this : addr) (flag : Z) (m : Memory)
    : result Memory :=
  self ← deref (nodes m !! this);
  h ← resetFlagLoop (size (nodes m)) flag (Some this) (nodes m);
  if Z.land flag IS_GAUSSIAN_VALID =? 0 then
    Done (mkMemory h (treemaps m))
  else
    t ← deref (tree self);
    tm ← deref (treemaps m !! t);
    Done (mkMemory h (<[t := setIsEstimateValid false tm]> (treemaps m))).


End Flags.

(** ** [TmTreemap::getNode] *)

(** [if (0<=index && index<(int) node.size()) return node[index]; else
    return NULL;]  A read of [node[index]] outside the vector is a [Fault]. *)
Definition getNode (tm : TmTreemap) (index : Z) : result (option addr) :=
  if (0 <=? index) && (index <? toInt (Z.of_nat (length (node tm)))) then
    deref (node tm !! Z.to_nat index)
  else Done None.

(** ** Ancestor chains *)

(** [ancestors h a l]: [l] lists [a], its parent, its grandparent, ... up to
    the node without parent. *)
Inductive ancestors (h : gmap addr TmNode) : addr → list addr → Prop :=
  | ancestors_top a nd :
      h !! a = Some nd → parent nd = None → ancestors h a [a]
  | ancestors_up a nd p l :
      h !! a = Some nd → parent nd = Some p → ancestors h p l →
      ancestors h a (a :: l).

(** The nodes that [resetFlagUpToRoot] visits with the flag set: the longest
    prefix of the chain on which [status & flag] is not zero. *)
Fixpoint flaggedPrefix (flag : Z) (h : gmap addr TmNode) (l : list addr)
    : list addr :=
  match l with
  | [] => []
  | a :: l' =>
      match h !! a with
      | Some nd => if isFlag flag nd then a :: flaggedPrefix flag h l' else []
      | None => []
      end
  end.

(** ** Reading and writing the store *)

Definition readNode (a : addr) (m : Memory) : result TmNode :=
  deref (nodes m !! a).

Definition writeNode (a : addr) (nd : TmNode) (m : Memory) : Memory :=
  mkMemory (<[a := nd]> (nodes m)) (treemaps m).

Definition writeTreemap (t : addr) (tm : TmTreemap) (m : Memory) : Memory :=
  mkMemory (nodes m) (<[t := tm]> (treemaps m)).

(** ** [TmTreemap::Move] *)

(** The members of [Move] without [cost], a [double] that [tryIt] and
    [undoIt] do not use. *)
Record Move : Type := mkMove {
  subtree : option addr;
  whichChild : Z;
  oldAbove : option addr;
  above : option addr;
  join : bool
}.

(** [Move ()]: the empty move. *)
Definition emptyMove : Move := mkMove None (-1) None None false.

(** [bool isEmpty () const {return above==NULL;}] *)
Definition isEmpty (mv : Move) : bool := bool_decide (above mv = None).

(** Modelled from the spec: [TmNode::sibling], declared in [tmNode.h], which
    is missing.  The sibling of [s] is the other child of its parent; the
    result also tells which child [s] is. *)
Definition siblingOf (s : addr) (m : Memory) : result (Z * addr) :=
  ns ← readNode s m;
  p ← deref (parent ns);
  np ← readNode p m;
  if bool_decide (child0 np = Some s) then
    o ← deref (child1 np); Done (0, o)
  else if bool_decide (child1 np = Some s) then
    o ← deref (child0 np); Done (1, o)
  else Fault.

(** Modelled from the spec: [Move::setOldAbove], whose body is missing
    (header: "Sets oldAbove and whichChild"; [oldAbove] is the sibling of
    [subtree], [whichChild] tells "which child was subtree before moving"). *)
Definition setOldAbove (mv : Move) (m : Memory) : result Move :=
  s ← deref (subtree mv);
  '(w, o) ← siblingOf s m;
  Done (mkMove (subtree mv) w (Some o) (above mv) (join mv)).

(** Modelled from the spec: the relinking of a move, whose code is missing.
    [replaceChild q t old new] puts [new] where [old] was: in the child
    array of [q], or as [root] of treemap [t] when [old] has no parent. *)
Definition replaceChild (q : option addr) (t : option addr) (old new : addr)
    (m : Memory) : result Memory :=
  match q with
  | None =>
      ta ← deref t;
      tm ← deref (treemaps m !! ta);
      Done (writeTreemap ta (setRoot (Some new) tm) m)
  | Some qa =>
      nq ← readNode qa m;
      if bool_decide (child0 nq = Some old) then
        Done (writeNode qa (setChildren (Some new) (child1 nq) nq) m)
      else if bool_decide (child1 nq = Some old) then
        Done (writeNode qa (setChildren (child0 nq) (Some new) nq) m)
      else Fault
  end.

(** Modelled from the spec: first half of a move (the code is missing).  The
    parent [p] of [s] is taken out of the tree: the sibling of [s] takes the
    place of [p].  The links of [p] itself are left as they are.  Returns
    [p] and the former parent of [p]. *)
Definition detach (s : addr) (m : Memory)
    : result (addr * option addr * Memory) :=
  ns ← readNode s m;
  p ← deref (parent ns);
  np ← readNode p m;
  '(_, o) ← siblingOf s m;
  m1 ← replaceChild (parent np) (tree np) p o m;
  no ← readNode o m1;
  Done (p, parent np, writeNode o (setParent (parent np) no) m1).

(** Modelled from the spec: second half of a move (the code is missing).
    [p] is put between [a] and the parent of [a] ("subtree->parent will be
    made the new parent of above and subtree"); [s] becomes child number [w]
    of [p] and [a] the other child. *)
Definition attach (s p a : addr) (w : Z) (m : Memory) : result Memory :=
  na ← readNode a m;
  m1 ← replaceChild (parent na) (tree na) a p m;
  np ← readNode p m1;
  let np' :=
    setParent (parent na)
      (if w =? 0 then setChildren (Some s) (Some a) np
       else setChildren (Some a) (Some s) np) in
  let m2 := writeNode p np' m1 in
  na' ← readNode a m2;
  Done (writeNode a (setParent (Some p) na') m2).

Section Moves.

(** Flag constants of [tmNode.h], which is missing: parameters. *)
Variables IS_FEATURE_PASSED_VALID IS_GAUSSIAN_VALID CAN_BE_MOVED : Z.

(** The joining of two leaves is code of [tmTreemap.cc] that is not
    modelled: a parameter. *)
Variable joinLeaves : addr → addr → Memory → result Memory.

(** Modelled from the spec: moving [s] to above [a] for a trial (the code is
    missing): relink, then "mark IS_FEATURE_PASSED_VALID false up to the new
    root" from the new place of the parent and from its old place;
    [IS_GAUSSIAN_VALID] is not touched. *)
Definition trialMove (s a : addr) (w : Z) (m : Memory) : result Memory :=
  '(p, g, m1) ← detach s m;
  m2 ← attach s p a w m1;
  m3 ← resetFlagUpToRoot IS_GAUSSIAN_VALID p IS_FEATURE_PASSED_VALID m2;
  match g with
  | None => Done m3
  | Some ga => resetFlagUpToRoot IS_GAUSSIAN_VALID ga IS_FEATURE_PASSED_VALID m3
  end.

(** Modelled from the spec: [Move::tryIt], whose body is missing (header:
    "Sets oldAbove, move or joins but invalidates only
    IS_FEATURE_PASSED_VALID not IS_GAUSSIAN_VALID. [...] Also reset the
    CAN_BE_MOVED flag."). *)
Definition tryIt (mv : Move) (m : Memory) : result (Move * Memory) :=
  mv1 ← setOldAbove mv m;
  s ← deref (subtree mv1);
  a ← deref (above mv1);
  if join mv1 then
    m1 ← joinLeaves s a m; Done (mv1, m1)
  else
    m1 ← trialMove s a (whichChild mv1) m;
    ns ← readNode s m1;
    Done (mv1, writeNode s (clearFlag CAN_BE_MOVED ns) m1).

(** Modelled from the spec: [TmNode::setFlag] of [tmNode.h], which is
    missing: [n->status |= flag]. *)
Definition setFlag (flag : Z) (n : TmNode) : TmNode :=
  setStatus (Z.lor (status n) flag) n.

(** Modelled from the spec: [Move::undoIt], whose body is missing (header:
    "Move back and assert that above is sibling of subtree. Sets the
    CAN_BE_MOVED flag."; a join "cannot be undone"). *)
Definition undoIt (mv : Move) (m : Memory) : result Memory :=
  if join mv then Fault
  else
    s ← deref (subtree mv);
    a ← deref (above mv);
    o ← deref (oldAbove mv);
    '(_, sib) ← siblingOf s m;
    if bool_decide (sib = a) then
      m1 ← trialMove s o (whichChild mv) m;
      ns ← readNode s m1;
      Done (writeNode s (setFlag CAN_BE_MOVED ns) m1)
    else Fault.

End Moves.

(** ** Trees in the store *)

(** Every [parent] pointer leads to a node of the store. *)
Definition closed (h : gmap addr TmNode) : Prop :=
  ∀ a nd p, h !! a = Some nd → parent nd = Some p → is_Some (h !! p).

(** The store holds one binary tree, owned by the treemap at [t]. *)
Record wellFormed (t : addr) (m : Memory) : Prop := mkWellFormed {
  wf_parent : ∀ a nd p, nodes m !! a = Some nd → parent nd = Some p →
    ∃ np, nodes m !! p = Some np ∧ (child0 np = Some a ∨ child1 np = Some a);
  wf_child : ∀ a nd c, nodes m !! a = Some nd →
    child0 nd = Some c ∨ child1 nd = Some c →
    ∃ nc, nodes m !! c = Some nc ∧ parent nc = Some a;
  wf_distinct : ∀ a nd c, nodes m !! a = Some nd →
    child0 nd = Some c → child1 nd ≠ Some c;
  wf_binary : ∀ a nd, nodes m !! a = Some nd →
    child0 nd = None ↔ child1 nd = None;
  wf_acyclic : ∀ a, is_Some (nodes m !! a) → ∃ l, ancestors (nodes m) a l;
  wf_owner : ∀ a nd, nodes m !! a = Some nd → tree nd = Some t;
  wf_root : ∃ tm, treemaps m !! t = Some tm ∧
    ∀ a nd, nodes m !! a = Some nd → parent nd = None → root tm = Some a
}.

(** Two nodes that differ at most in status bits other than those of
    [IS_GAUSSIAN_VALID]. *)
Definition nodeSim (G : Z) (n1 n2 : TmNode) : Prop :=
  index n1 = index n2 ∧ parent n1 = parent n2 ∧ child0 n1 = child0 n2 ∧
  child1 n1 = child1 n2 ∧ tree n1 = tree n2 ∧
  gaussianFeature n1 = gaussianFeature n2 ∧
  Z.land (status n1) G = Z.land (status n2) G.

(** Two stores with the same topology (parent and child links of every
    node, root of every treemap) and the same [IS_GAUSSIAN_VALID] flags. *)
Definition sameShape (G : Z) (m1 m2 : Memory) : Prop :=
  (∀ b, option_Forall2 (nodeSim G) (nodes m1 !! b) (nodes m2 !! b)) ∧
  treemaps m1 = treemaps m2.

(** [owner m a t tm]: node [a] points with [tree] to the treemap [tm] stored
    at [t]. *)
Definition owner (m : Memory) (a t : addr) (tm : TmTreemap) : Prop :=
  ∃ nd, nodes m !! a = Some nd ∧ tree nd = Some t ∧ treemaps m !! t = Some tm.

(** ** Notions used in the proofs *)

(** The nodes of the store on which [status & flag] is not zero. *)
Definition flagged (flag : Z) (h : gmap addr TmNode) : gmap addr TmNode :=
  filter (λ kv, isFlag flag kv.2 = true) h.

(** [h'] is [h] with [flag] cleared on some nodes. *)
Definition statusChange (flag : Z) (h h' : gmap addr TmNode) : Prop :=
  ∀ b, h' !! b = h !! b ∨
       ∃ nb, h !! b = Some nb ∧ h' !! b = Some (clearFlag flag nb).

(** Two runs that end alike, with results related by [R]. *)
Definition resultRel {A B : Type} (R : A → B → Prop)
    (r1 : result A) (r2 : result B) : Prop :=
  match r1, r2 with
  | Done a, Done b => R a b
  | Fault, Fault => True
  | OutOfFuel, OutOfFuel => True
  | _, _ => False
  end.

(** [x] is a child of [nd]. *)
Definition hasChild (nd : TmNode) (x : addr) : Prop :=
  child0 nd = Some x ∨ child1 nd = Some x.

(** The node that [replaceChild] writes: [new] in the first slot that holds
    [old]. *)
Definition swapChild (old new : addr) (nd : TmNode) : TmNode :=
  if bool_decide (child0 nd = Some old) then
    setChildren (Some new) (child1 nd) nd
  else setChildren (child0 nd) (Some new) nd.

(** [X] differs from [nd] in its links only. *)
Definition sameButLinks (X nd : TmNode) : Prop :=
  index X = index nd ∧ status X = status nd ∧ tree X = tree nd ∧
  gaussianFeature X = gaussianFeature nd.

(** The state between the two halves of a move: [s] hangs below [p], and [p]
    is in nobody's child array; [a], where [p] will go, is a child of its
    parent, or the root. *)
Definition floating (s p a : addr) (m : Memory) : Prop :=
  ∃ ns np na,
    nodes m !! s = Some ns ∧ parent ns = Some p ∧
    nodes m !! p = Some np ∧ nodes m !! a = Some na ∧
    match parent na with
    | Some q =>
        q ≠ p ∧ q ≠ a ∧
        ∃ nq, nodes m !! q = Some nq ∧ hasChild nq a ∧ ¬ hasChild nq p
    | None =>
        ∃ t tm, tree na = Some t ∧ tree np = Some t ∧
          treemaps m !! t = Some tm ∧ root tm = Some a
    end.

(** ** The invalidation invariant *)

(** [live m t a l]: node [a] is live in the tree of treemap [t]: its chain
    of ancestors [l] ends at the root. *)
Definition live (m : Memory) (t a : addr) (l : list addr) : Prop :=
  ancestors (nodes m) a l ∧
  ∃ tm, treemaps m !! t = Some tm ∧ root tm = last l.

(** The flag is false on node [b]. *)
Definition flagClear (flag : Z) (m : Memory) (b : addr) : Prop :=
  ∃ nb, nodes m !! b = Some nb ∧ isFlag flag nb = false.

(** For every live node: flag false on the node implies flag false on every
    ancestor up to the root. *)
Definition ancestorsInvalid (flag : Z) (t : addr) (m : Memory) : Prop :=
  ∀ a l, live m t a l → flagClear flag m a → ∀ b, b ∈ l → flagClear flag m b.


(** ** [effectOfJoining] *)

(** [x] is a leaf of the subtree below [n]. *)
Inductive leafBelow (h : gmap addr TmNode) : addr → addr → Prop :=
  | leafBelow_leaf n nd :
      h !! n = Some nd → child0 nd = None → child1 nd = None →
      leafBelow h n n
  | leafBelow_child n nd c x :
      h !! n = Some nd → hasChild nd c → leafBelow h c x →
      leafBelow h n x.

Section Joining.

(** Flag constant of [tmNode.h], which is missing: a parameter. *)
Variable CAN_BE_INTEGRATED : Z.

(** The grouping of the collected features into the permanently
    marginalized ones, the ones marginalized at the subtree and the ones
    passed to the parent needs [TmExtendedFeatureList] and [TmFeature],
    which are missing: a parameter, giving [fl], [nPM], [nM] and [nP]. *)
Variable threeWaySplit : Memory → addr → list Z → list Z * Z * Z * Z.

(** Modelled from the spec: the walk over the leaves below [n] that
    [effectOfJoining] makes (its code is missing; header: "fl is the list of
    features involved in some distribution below subtree").  The result is
    [None] when some leaf is not marked [CAN_BE_INTEGRATED]. *)
Fixpoint collectFeatures (fuel : nat) (h : gmap addr TmNode) (n : addr)
    : result (option (list Z)) :=
  match fuel with
  | O => OutOfFuel
  | S fuel' =>
      nd ← deref (h !! n);
      match child0 nd, child1 nd with
      | None, None =>
          Done (if isFlag CAN_BE_INTEGRATED nd then Some (gaussianFeature nd)
                else None)
      | Some c0, Some c1 =>
          r0 ← collectFeatures fuel' h c0;
          r1 ← collectFeatures fuel' h c1;
          Done (match r0, r1 with
                | Some f0, Some f1 => Some (f0 ++ f1)
                | _, _ => None
                end)
      | _, _ => Fault
      end
  end.

(** Modelled from the spec: [TmTreemap::effectOfJoining], whose body is
    missing (header: "If any original distribution below subtree is not
    marked CAN_BE_INTEGRATED an empty list and nPM=nM=nP=-1 are
    returned").  The result is [(fl, nPM, nM, nP)]; the tree is not
    changed.  A path in a tree has at most as many nodes as the store, which
    bounds the depth of the walk. *)
Definition effectOfJoining (subtree : addr) (m : Memory)
    : result (list Z * Z * Z * Z) :=
  r ← collectFeatures (size (nodes m)) (nodes m) subtree;
  match r with
  | None => Done ([], -1, -1, -1)
  | Some fl => Done (threeWaySplit m subtree fl)
  end.

End Joining.

(** ** A small tree for the examples

    Treemap [0] owns seven nodes: root [1] with children [2] and [3]; [2] has
    the leaves [4] and [5], [3] has the leaves [6] and [7].  [exampleNodes]
    takes the status word of each node. *)
Definition exampleNode (i : Z) (st : Z) (p c0 c1 : option addr) : TmNode :=
  mkNode i st p c0 c1 (Some 0%nat) [].

Definition exampleNodes (s1 s2 s3 s4 s5 s6 s7 : Z) : gmap addr TmNode :=
  <[1%nat := exampleNode 0 s1 None (Some 2%nat) (Some 3%nat)]>
  (<[2%nat := exampleNode 1 s2 (Some 1%nat) (Some 4%nat) (Some 5%nat)]>
  (<[3%nat := exampleNode 2 s3 (Some 1%nat) (Some 6%nat) (Some 7%nat)]>
  (<[4%nat := exampleNode 3 s4 (Some 2%nat) None None]>
  (<[5%nat := exampleNode 4 s5 (Some 2%nat) None None]>
  (<[6%nat := exampleNode 5 s6 (Some 3%nat) None None]>
  (<[7%nat := exampleNode 6 s7 (Some 3%nat) None None]> ∅)))))).

Definition exampleTreemap : TmTreemap :=
  mkTreemap (Some 1%nat)
    [Some 1; Some 2; Some 3; Some 4; Some 5; Some 6; Some 7]%nat [] true true.

Definition exampleMemory (s1 s2 s3 s4 s5 s6 s7 : Z) : Memory :=
  mkMemory (exampleNodes s1 s2 s3 s4 s5 s6 s7) {[ 0%nat := exampleTreemap ]}.


(** ** [TmTreemap::isGaussianValid] and [TmTreemap::isFeaturePassedValid] *)

(** [bool isGaussianValid() const {return isGaussianValidValid &&
    (root==NULL || root->isFlag(TmNode::IS_GAUSSIAN_VALID));}]  The [&&]
    and the [||] do not read [root] when their left side decides. *)
Definition isGaussianValid (IS_GAUSSIAN_VALID : Z) (t : addr) (m : Memory)
    : result bool :=
  tm ← deref (treemaps m !! t);
  if isGaussianValidValid tm then
    match root tm with
    | None => Done true
    | Some r => nd ← readNode r m; Done (isFlag IS_GAUSSIAN_VALID nd)
    end
  else Done false.

(** [bool isFeaturePassedValid () const {return root==NULL ||
    root->isFlag(TmNode::IS_FEATURE_PASSED_VALID);}] *)
Definition isFeaturePassedValid (IS_FEATURE_PASSED_VALID : Z) (t : addr)
    (m : Memory) : result bool :=
  tm ← deref (treemaps m !! t);
  match root tm with
  | None => Done true
  | Some r => nd ← readNode r m; Done (isFlag IS_FEATURE_PASSED_VALID nd)
  end.

(** ** What a call of [resetFlagUpToRoot] reaches *)

(** [flagReach flag h a c]: the walk of [resetFlagUpToRoot] that starts at
    [a] passes [c] with the flag set: the flag is set on [a], on [c] and on
    every node between them on the way up. *)
Inductive flagReach (flag : Z) (h : gmap addr TmNode) : addr → addr → Prop :=
  | flagReach_here a nd :
      h !! a = Some nd → isFlag flag nd = true → flagReach flag h a a
  | flagReach_up a nd p c :
      h !! a = Some nd → isFlag flag nd = true → parent nd = Some p →
      flagReach flag h p c → flagReach flag h a c.

(** What [resetFlagUpToRoot] may change in a node: nothing but [status], and
    there it may clear the bits of [flag]. *)
Definition onlyFlagCleared (flag : Z) (n n' : TmNode) : Prop :=
  index n' = index n ∧ parent n' = parent n ∧ child0 n' = child0 n ∧
  child1 n' = child1 n ∧ tree n' = tree n ∧
  gaussianFeature n' = gaussianFeature n ∧
  (status n' = status n ∨ status n' = Z.land (status n) (Z.lnot flag)).

(** What [resetFlagUpToRoot] may change in a treemap: [isEstimateValid]. *)
Definition onlyEstimateStale (tm tm' : TmTreemap) : Prop :=
  root tm' = root tm ∧ node tm' = node tm ∧
  unusedNodes tm' = unusedNodes tm ∧
  isGaussianValidValid tm' = isGaussianValidValid tm ∧
  (isEstimateValid tm' = isEstimateValid tm ∨ isEstimateValid tm' = false).

(** ** A store whose parent links form a cycle

    Nodes [1] and [2] name each other as parent; both have status [st]. *)
Definition cyclicMemory (st : Z) : Memory :=
  mkMemory
    (<[1%nat := mkNode 0 st (Some 2%nat) None None (Some 0%nat) []]>
     (<[2%nat := mkNode 1 st (Some 1%nat) None None (Some 0%nat) []]> ∅))
    {[ 0%nat := mkTreemap None [Some 1; Some 2]%nat [] true true ]}.

(** The example tree with status [3] on all nodes but the root, after
    [IS_GAUSSIAN_VALID = 2] was reset from leaf [4]. *)
Definition exampleResetMemory : Memory :=
  mkMemory (exampleNodes 1 1 3 1 3 3 3)
    {[ 0%nat := setIsEstimateValid false exampleTreemap ]}.
(** * Properties *)

(** ** Chains *)

Lemma ancestors_head h a l : ancestors h a l → ∃ l', l = a :: l'.
Proof. destruct 1; eauto. Qed.

Lemma ancestors_functional h a l1 l2 :
  ancestors h a l1 → ancestors h a l2 → l1 = l2.
Proof.
  intros H1. revert l2.
  induction H1 as [a nd Ha Hp | a nd p l Ha Hp Hl IH]; intros l2 H2;
    inversion H2; simplify_eq; auto.
  f_equal. auto.
Qed.

Lemma ancestors_suffix h a l b l1 l2 :
  ancestors h a l → l = l1 ++ b :: l2 → ancestors h b (b :: l2).
Proof.
  intros H. revert l1.
  induction H as [a nd Ha Hp | a nd p l Ha Hp Hl IH]; intros l1 E.
  - destruct l1 as [|x [|y l1]]; simplify_eq/=. econstructor; eauto.
  - destruct l1 as [|x l1]; simplify_eq/=.
    + econstructor 2; eauto.
    + eapply IH; eauto.
Qed.

Lemma ancestors_NoDup h a l : ancestors h a l → NoDup l.
Proof.
  induction 1 as [a nd Ha Hp | a nd p l Ha Hp Hl IH].
  - apply NoDup_singleton.
  - constructor; [|done].
    intros Hin. apply list_elem_of_split in Hin as (l1 & l2 & ->).
    assert (ancestors h a (a :: l2)) as H1
      by (eapply ancestors_suffix; eauto).
    assert (ancestors h a (a :: l1 ++ a :: l2)) as H2
      by (econstructor 2; eauto).
    pose proof (ancestors_functional _ _ _ _ H1 H2) as E.
    apply (f_equal length) in E. simpl in E. rewrite length_app in E.
    simpl in E. lia.
Qed.

Lemma ancestors_in_dom h a l b : ancestors h a l → b ∈ l → is_Some (h !! b).
Proof.
  induction 1 as [a nd Ha Hp | a nd p l Ha Hp Hl IH]; intros Hin.
  - apply list_elem_of_singleton in Hin as ->. eauto.
  - apply elem_of_cons in Hin as [->|Hin]; eauto.
Qed.

Lemma ancestors_length h a l : ancestors h a l → (length l ≤ size h)%nat.
Proof.
  intros H.
  rewrite <- size_dom.
  rewrite <- (size_list_to_set (C := gset addr) l)
    by (by eapply ancestors_NoDup).
  apply subseteq_size. intros b Hb.
  apply elem_of_list_to_set in Hb. apply elem_of_dom.
  by eapply ancestors_in_dom.
Qed.

(** A write that keeps the [parent] field keeps every chain. *)
Lemma ancestors_insert h a l b nb nb' :
  h !! b = Some nb → parent nb' = parent nb →
  ancestors h a l → ancestors (<[b := nb']> h) a l.
Proof.
  intros Hb Hp.
  induction 1 as [a nd Ha Hpa | a nd p l Ha Hpa Hl IH].
  - destruct (decide (b = a)) as [->|Hne].
    + econstructor 1; [apply lookup_insert_eq|]. congruence.
    + econstructor 1; [by rewrite lookup_insert_ne|]. done.
  - destruct (decide (b = a)) as [->|Hne].
    + econstructor 2; [apply lookup_insert_eq| |done]. congruence.
    + econstructor 2; [by rewrite lookup_insert_ne| |done]. done.
Qed.

(** ** The loop of [resetFlagUpToRoot] *)

Lemma flaggedPrefix_sub flag h l b : b ∈ flaggedPrefix flag h l → b ∈ l.
Proof.
  induction l as [|a l IH]; simpl; [done|].
  destruct (h !! a) as [nd|]; [|by intros ?%elem_of_nil].
  destruct (isFlag flag nd); [|by intros ?%elem_of_nil].
  intros [->|?]%elem_of_cons; [left|right; auto].
Qed.

Lemma flaggedPrefix_insert flag h l a nd :
  a ∉ l → flaggedPrefix flag (<[a := nd]> h) l = flaggedPrefix flag h l.
Proof.
  induction l as [|b l IH]; simpl; [done|].
  intros Hn. apply not_elem_of_cons in Hn as [Hab Hl].
  rewrite lookup_insert_ne by done.
  destruct (h !! b) as [nb|]; [|done].
  destruct (isFlag flag nb); [|done]. by rewrite IH.
Qed.

(** The flagged prefix splits the chain: the flag is set on every node of
    the prefix and clear on the node that follows it, when there is one. *)
Lemma flaggedPrefix_split flag h a l :
  ancestors h a l →
  ∃ rest, l = flaggedPrefix flag h l ++ rest ∧
    (∀ b nb, b ∈ flaggedPrefix flag h l → h !! b = Some nb →
       isFlag flag nb = true) ∧
    (∀ b nb, head rest = Some b → h !! b = Some nb → isFlag flag nb = false).
Proof.
  induction 1 as [a nd Ha Hp | a nd p l Ha Hp Hl IH]; simpl; rewrite Ha.
  - destruct (isFlag flag nd) eqn:E.
    + exists []. split; [done|]. split; [|done].
      intros b nb ->%list_elem_of_singleton ?. congruence.
    + exists [a]. split; [done|]. split; [by intros ?? ?%elem_of_nil|].
      simpl. intros b nb ? ?. congruence.
  - destruct (isFlag flag nd) eqn:E.
    + destruct IH as (rest & El & Hset & Hclear).
      exists rest. split; [simpl; congruence|]. split; [|done].
      intros b nb [->|Hb]%elem_of_cons ?; [congruence|eauto].
    + exists (a :: l). split; [done|]. split; [by intros ?? ?%elem_of_nil|].
      simpl. intros b nb ? ?. congruence.
Qed.

Lemma resetFlagLoop_unfold fuel flag n h :
  resetFlagLoop fuel flag n h =
  match n with
  | None => Done h
  | Some a =>
      nd ← deref (h !! a);
      if isFlag flag nd then
        match fuel with
        | O => OutOfFuel
        | S fuel' =>
            resetFlagLoop fuel' flag (parent nd) (<[a := clearFlag flag nd]> h)
        end
      else Done h
  end.
Proof. by destruct fuel. Qed.

Lemma resetFlagLoop_chain flag l : ∀ fuel a h,
  ancestors h a l → (length l ≤ fuel)%nat →
  ∃ h', resetFlagLoop fuel flag (Some a) h = Done h' ∧
    (∀ b, b ∈ flaggedPrefix flag h l → h' !! b = clearFlag flag <$> h !! b) ∧
    (∀ b, b ∉ flaggedPrefix flag h l → h' !! b = h !! b).
Proof.
  induction l as [|a0 l IH]; intros fuel a h Hanc Hlen.
  { apply ancestors_head in Hanc as [? ?]. done. }
  pose proof (ancestors_NoDup _ _ _ Hanc) as Hnd.
  apply NoDup_cons in Hnd as [Hnotin _].
  rewrite resetFlagLoop_unfold.
  inversion Hanc as [a' nd Ha Hp | a' nd p l' Ha Hp Hl]; subst; simpl;
    rewrite Ha; simpl; destruct (isFlag flag nd) eqn:E.
  - destruct fuel as [|fuel]; [simpl in Hlen; lia|].
    rewrite Hp, resetFlagLoop_unfold. eexists. split; [done|]. split.
    + intros b ->%list_elem_of_singleton. by rewrite lookup_insert_eq, Ha.
    + intros b [Hne _]%not_elem_of_cons. by rewrite lookup_insert_ne by auto.
  - eexists. split; [done|]. split; [by intros ? ?%elem_of_nil|done].
  - destruct fuel as [|fuel]; [simpl in Hlen; lia|]. rewrite Hp.
    destruct (IH fuel p (<[a0 := clearFlag flag nd]> h))
      as (h' & Hrun & Hin & Hout).
    { eapply ancestors_insert; eauto. }
    { simpl in Hlen. lia. }
    rewrite flaggedPrefix_insert in Hin, Hout by done.
    exists h'. split; [done|]. split.
    + intros b [->|Hb]%elem_of_cons.
      * rewrite Hout, lookup_insert_eq, Ha; [done|].
        intros ?%flaggedPrefix_sub. done.
      * rewrite Hin by done. rewrite lookup_insert_ne; [done|].
        intros ->. by apply flaggedPrefix_sub in Hb.
    + intros b [Hne Hb]%not_elem_of_cons.
      rewrite Hout by done. by rewrite lookup_insert_ne by auto.
  - eexists. split; [done|]. split; [by intros ? ?%elem_of_nil|done].
Qed.

(** ** Flag words *)

Lemma isFlag_clearFlag flag nd : isFlag flag (clearFlag flag nd) = false.
Proof.
  unfold isFlag, clearFlag; simpl.
  rewrite <- Z.land_assoc, (Z.land_comm (Z.lnot flag)), Z.land_lnot_diag.
  by rewrite Z.land_0_r.
Qed.

(** A value is a 32-bit [int] exactly when its bits from 31 upwards are all
    equal. *)
Lemma isInt_shiftr z : isInt z ↔ Z.shiftr z 31 = 0 ∨ Z.shiftr z 31 = -1.
Proof.
  unfold isInt, INT_MIN, INT_MAX.
  rewrite Z.shiftr_div_pow2 by lia.
  pose proof (Z.div_mod z (2 ^ 31) ltac:(lia)).
  pose proof (Z.mod_pos_bound z (2 ^ 31) ltac:(lia)).
  lia.
Qed.

Lemma isInt_land a b : isInt a → isInt b → isInt (Z.land a b).
Proof.
  rewrite !isInt_shiftr, Z.shiftr_land.
  intros [-> | ->] [-> | ->]; auto.
Qed.

Lemma isInt_lnot a : isInt a → isInt (Z.lnot a).
Proof. unfold isInt, INT_MIN, INT_MAX, Z.lnot, Z.pred. lia. Qed.

(** [status & ~flag] stays a 32-bit [int]: the embedding needs no
    wrap-around for it. *)
Lemma clearFlag_isInt flag nd :
  isInt (status nd) → isInt flag → isInt (status (clearFlag flag nd)).
Proof. intros. apply isInt_land; [done|]. by apply isInt_lnot. Qed.

Lemma toInt_isInt z : isInt z → toInt z = z.
Proof.
  unfold isInt, INT_MIN, INT_MAX, toInt. intros H.
  rewrite Z.mod_small by lia. lia.
Qed.

(** ** [resetFlagUpToRoot] *)

Section ResetFlag.

Variable IS_GAUSSIAN_VALID : Z.

Lemma resetFlagUpToRoot_run m this flag l :
  ancestors (nodes m) this l →
  ∃ h', resetFlagLoop (size (nodes m)) flag (Some this) (nodes m) = Done h' ∧
    (∀ b, b ∈ flaggedPrefix flag (nodes m) l →
       h' !! b = clearFlag flag <$> nodes m !! b) ∧
    (∀ b, b ∉ flaggedPrefix flag (nodes m) l → h' !! b = nodes m !! b).
Proof.
  intros Hanc. eapply resetFlagLoop_chain; [done|].
  by eapply ancestors_length.
Qed.

(** What a call does to the store, in terms of the flagged prefix of the
    chain. *)
Lemma resetFlagUpToRoot_effect m this flag l t tm :
  ancestors (nodes m) this l →
  owner m this t tm →
  ∃ m',
    resetFlagUpToRoot IS_GAUSSIAN_VALID this flag m = Done m' ∧
    (∀ b, b ∈ flaggedPrefix flag (nodes m) l →
       nodes m' !! b = clearFlag flag <$> nodes m !! b) ∧
    (∀ b, b ∉ flaggedPrefix flag (nodes m) l →
       nodes m' !! b = nodes m !! b) ∧
    treemaps m' =
      (if Z.land flag IS_GAUSSIAN_VALID =? 0 then treemaps m
       else <[t := setIsEstimateValid false tm]> (treemaps m)).
Proof.
  intros Hanc (nd & Hthis & Htree & Htm).
  destruct (resetFlagUpToRoot_run m this flag l Hanc)
    as (h' & Hrun & Hin & Hout).
  unfold resetFlagUpToRoot. rewrite Hthis. simpl. rewrite Hrun. simpl.
  destruct (Z.land flag IS_GAUSSIAN_VALID =? 0) eqn:EG.
  - eexists. split; [done|]. by simpl.
  - rewrite Htree. simpl. rewrite Htm. simpl.
    eexists. split; [done|]. by simpl.
Qed.

(** C4. Called on a node [this] of a tree, [resetFlagUpToRoot flag] returns;
    the chain of [this] and its ancestors splits as [pre ++ rest] where the
    flag was set on every node of [pre] and is cleared there, the flag was
    already clear on the first node of [rest], and every node outside [pre]
    (that node, everything above it, and the rest of the store) is
    unchanged.  When [flag] includes [IS_GAUSSIAN_VALID] the owning treemap
    has [isEstimateValid = false] afterwards and is otherwise as before, as
    is every other treemap; when it does not, no treemap changes and the
    [tree] pointer is not read. *)
Theorem resetFlagUpToRoot_clears_while_set m this flag l t tm :
  ancestors (nodes m) this l →
  (Z.land flag IS_GAUSSIAN_VALID ≠ 0 → owner m this t tm) →
  ∃ m' pre rest,
    resetFlagUpToRoot IS_GAUSSIAN_VALID this flag m = Done m' ∧
    l = pre ++ rest ∧
    (∀ b nb, b ∈ pre → nodes m !! b = Some nb →
       isFlag flag nb = true ∧
       nodes m' !! b = Some (clearFlag flag nb) ∧
       isFlag flag (clearFlag flag nb) = false) ∧
    (∀ b nb, head rest = Some b → nodes m !! b = Some nb →
       isFlag flag nb = false) ∧
    (∀ b, b ∉ pre → nodes m' !! b = nodes m !! b) ∧
    (Z.land flag IS_GAUSSIAN_VALID = 0 → treemaps m' = treemaps m) ∧
    (Z.land flag IS_GAUSSIAN_VALID ≠ 0 →
       ∃ tm', treemaps m' !! t = Some tm' ∧
         isEstimateValid tm' = false ∧
         root tm' = root tm ∧ node tm' = node tm ∧
         unusedNodes tm' = unusedNodes tm ∧
         isGaussianValidValid tm' = isGaussianValidValid tm ∧
         ∀ t', t' ≠ t → treemaps m' !! t' = treemaps m !! t').
Proof.
  intros Hanc Hown.
  destruct (resetFlagUpToRoot_run m this flag l Hanc) as (h' & Hrun & Hin & Hout).
  destruct (flaggedPrefix_split flag _ _ _ Hanc) as (rest & El & Hset & Hclear).
  assert (this ∈ l) as Hthisl by (apply ancestors_head in Hanc as [? ->]; left).
  destruct (ancestors_in_dom _ _ _ this Hanc Hthisl) as [nd Hthis].
  assert (∀ b nb, b ∈ flaggedPrefix flag (nodes m) l →
            nodes m !! b = Some nb →
            isFlag flag nb = true ∧ h' !! b = Some (clearFlag flag nb) ∧
            isFlag flag (clearFlag flag nb) = false) as Hpre.
  { intros b nb Hb Hnb. split; [eauto|]. split; [|apply isFlag_clearFlag].
    by rewrite Hin, Hnb. }
  unfold resetFlagUpToRoot. rewrite Hthis. simpl. rewrite Hrun. simpl.
  destruct (Z.eqb_spec (Z.land flag IS_GAUSSIAN_VALID) 0) as [EG|EG].
  - eexists _, (flaggedPrefix flag (nodes m) l), rest.
    split; [done|]. split; [done|]. simpl.
    do 3 (split; [done|]). split; [done|]. intros HG. done.
  - destruct (Hown EG) as (nd' & Hthis' & Htree & Htm).
    assert (nd' = nd) as -> by congruence.
    rewrite Htree. simpl. rewrite Htm. simpl.
    eexists _, (flaggedPrefix flag (nodes m) l), rest.
    split; [done|]. split; [done|]. simpl.
    do 3 (split; [done|]). split; [done|]. intros _.
    exists (setIsEstimateValid false tm).
    split; [by rewrite lookup_insert_eq|].
    do 5 (split; [done|]).
    intros t' Ht'. by rewrite lookup_insert_ne.
Qed.

(** C10. With [IS_GAUSSIAN_VALID] in the mask, every call of
    [resetFlagUpToRoot] that returns leaves [isEstimateValid = false] in the
    owning treemap; and when no bit of the mask is set on the starting node
    the call returns with the node store unchanged and [isEstimateValid]
    false all the same. *)
Theorem resetFlagUpToRoot_estimate_stale_unconditionally m this flag nd t tm :
  Z.land flag IS_GAUSSIAN_VALID ≠ 0 →
  nodes m !! this = Some nd → tree nd = Some t → treemaps m !! t = Some tm →
  (∀ m', resetFlagUpToRoot IS_GAUSSIAN_VALID this flag m = Done m' →
     treemaps m' !! t = Some (setIsEstimateValid false tm) ∧
     isEstimateValid (setIsEstimateValid false tm) = false) ∧
  (isFlag flag nd = false →
     ∃ m', resetFlagUpToRoot IS_GAUSSIAN_VALID this flag m = Done m' ∧
       nodes m' = nodes m ∧
       treemaps m' !! t = Some (setIsEstimateValid false tm)).
Proof.
  intros HG Hthis Htree Htm.
  apply Z.eqb_neq in HG.
  unfold resetFlagUpToRoot. rewrite Hthis. simpl. split.
  - intros m'.
    destruct (resetFlagLoop _ _ _ _) as [h'| |]; simpl; try done.
    rewrite HG, Htree. simpl. rewrite Htm. simpl.
    intros [= <-]. simpl. by rewrite lookup_insert_eq.
  - intros Hclear. rewrite resetFlagLoop_unfold, Hthis. simpl.
    rewrite Hclear. simpl. rewrite HG, Htree. simpl. rewrite Htm. simpl.
    eexists. split; [done|]. simpl. by rewrite lookup_insert_eq.
Qed.

End ResetFlag.

Lemma exampleNodes_ancestors_4 s1 s2 s3 s4 s5 s6 s7 :
  ancestors (exampleNodes s1 s2 s3 s4 s5 s6 s7) 4%nat [4; 2; 1]%nat.
Proof.
  econstructor 2; [reflexivity|reflexivity|].
  econstructor 2; [reflexivity|reflexivity|].
  econstructor 1; reflexivity.
Defined.

Lemma exampleMemory_owner s1 s2 s3 s4 s5 s6 s7 :
  owner (exampleMemory s1 s2 s3 s4 s5 s6 s7) 4%nat 0%nat exampleTreemap.
Proof. eexists. split; [reflexivity|]. split; reflexivity. Defined.

(** With [IS_GAUSSIAN_VALID = 2]: leaf [4] and its parent [2] have the flag,
    the root [1] does not; [isEstimateValid] is [true] before the call. *)
Lemma resetFlagUpToRoot_clears_while_set_witness :
  isEstimateValid exampleTreemap = true ∧
  ∃ m' pre rest,
    resetFlagUpToRoot 2 4%nat 2 (exampleMemory 1 3 3 3 3 3 3) = Done m' ∧
    [4; 2; 1]%nat = pre ++ rest ∧
    (∀ b nb, b ∈ pre → nodes (exampleMemory 1 3 3 3 3 3 3) !! b = Some nb →
       isFlag 2 nb = true ∧
       nodes m' !! b = Some (clearFlag 2 nb) ∧
       isFlag 2 (clearFlag 2 nb) = false) ∧
    (∀ b nb, head rest = Some b →
       nodes (exampleMemory 1 3 3 3 3 3 3) !! b = Some nb →
       isFlag 2 nb = false) ∧
    (∀ b, b ∉ pre → nodes m' !! b = nodes (exampleMemory 1 3 3 3 3 3 3) !! b) ∧
    ∃ tm', treemaps m' !! 0%nat = Some tm' ∧
      isEstimateValid tm' = false ∧
      root tm' = root exampleTreemap ∧ node tm' = node exampleTreemap ∧
      unusedNodes tm' = unusedNodes exampleTreemap ∧
      isGaussianValidValid tm' = isGaussianValidValid exampleTreemap ∧
      ∀ t', t' ≠ 0%nat →
        treemaps m' !! t' = treemaps (exampleMemory 1 3 3 3 3 3 3) !! t'.
Proof.
  split; [reflexivity|].
  destruct (resetFlagUpToRoot_clears_while_set 2
              (exampleMemory 1 3 3 3 3 3 3) 4%nat 2 [4; 2; 1]%nat 0%nat
              exampleTreemap)
    as (m' & pre & rest & Hrun & El & Hpre & Hrest & Hout & _ & Hstale).
  - apply exampleNodes_ancestors_4.
  - intros _. apply exampleMemory_owner.
  - exists m', pre, rest.
    split; [exact Hrun|]. split; [exact El|]. split; [exact Hpre|].
    split; [exact Hrest|]. split; [exact Hout|].
    apply Hstale. vm_compute. discriminate.
Defined.

(** Leaf [4] has [IS_GAUSSIAN_VALID = 2] clear already. *)
Lemma resetFlagUpToRoot_estimate_stale_unconditionally_witness :
  ∃ m', resetFlagUpToRoot 2 4%nat 2 (exampleMemory 1 1 3 1 3 3 3) = Done m' ∧
    nodes m' = nodes (exampleMemory 1 1 3 1 3 3 3) ∧
    treemaps m' !! 0%nat = Some (setIsEstimateValid false exampleTreemap).
Proof.
  apply (resetFlagUpToRoot_estimate_stale_unconditionally 2
           (exampleMemory 1 1 3 1 3 3 3) 4%nat 2
           (exampleNode 3 1 (Some 2%nat) None None) 0%nat exampleTreemap).
  - vm_compute. discriminate.
  - reflexivity.
  - reflexivity.
  - reflexivity.
  - reflexivity.
Defined.

(** ** [getNode] *)

Lemma toInt_le z : 0 <= z → toInt z <= z.
Proof.
  unfold toInt. intros H.
  pose proof (Z.mod_le (z + 2 ^ 31) (2 ^ 32) ltac:(lia) ltac:(lia)). lia.
Qed.

(** C9. [getNode] returns for every index and never reads outside the node
    vector.  For a node vector whose size is an [int], an index outside
    [0, node.size()) gives [NULL], and an index inside gives the stored
    slot, which may be [NULL]. *)
Theorem getNode_in_and_out_of_range tm i :
  Z.of_nat (length (node tm)) <= INT_MAX →
  (∃ r, getNode tm i = Done r) ∧
  (i < 0 ∨ Z.of_nat (length (node tm)) <= i → getNode tm i = Done None) ∧
  (0 <= i < Z.of_nat (length (node tm)) →
     ∃ slot, node tm !! Z.to_nat i = Some slot ∧ getNode tm i = Done slot).
Proof.
  intros Hsz. unfold getNode.
  rewrite toInt_isInt by (unfold isInt, INT_MIN, INT_MAX in *; lia).
  split; [|split].
  - destruct (0 <=? i) eqn:E0; simpl; [|eauto].
    destruct (i <? Z.of_nat (length (node tm))) eqn:E1; [|eauto].
    apply Z.leb_le in E0. apply Z.ltb_lt in E1.
    destruct (lookup_lt_is_Some_2 (node tm) (Z.to_nat i)) as [slot Hs]; [lia|].
    rewrite Hs. simpl. eauto.
  - intros [Hlt|Hge].
    + by rewrite (proj2 (Z.leb_gt 0 i)) by done.
    + rewrite (proj2 (Z.ltb_ge i _)) by done. by rewrite andb_false_r.
  - intros [H0 Hlt].
    rewrite (proj2 (Z.leb_le 0 i)), (proj2 (Z.ltb_lt i _)) by done. simpl.
    destruct (lookup_lt_is_Some_2 (node tm) (Z.to_nat i)) as [slot Hs]; [lia|].
    exists slot. by rewrite Hs.
Qed.

(** Without the bound on the size the call still returns: the guard keeps
    the read inside the vector. *)
Lemma getNode_returns tm i : ∃ r, getNode tm i = Done r.
Proof.
  unfold getNode.
  destruct (0 <=? i) eqn:E0; simpl; [|eauto].
  destruct (i <? _) eqn:E1; [|eauto].
  apply Z.leb_le in E0. apply Z.ltb_lt in E1.
  pose proof (toInt_le (Z.of_nat (length (node tm))) ltac:(lia)).
  destruct (lookup_lt_is_Some_2 (node tm) (Z.to_nat i)) as [slot Hs]; [lia|].
  rewrite Hs. simpl. eauto.
Qed.

Lemma getNode_in_and_out_of_range_witness :
  Z.of_nat (length (node exampleTreemap)) <= INT_MAX ∧
  getNode exampleTreemap 7 = Done None ∧
  getNode exampleTreemap (-1) = Done None ∧
  ∃ slot, node exampleTreemap !! Z.to_nat 2 = Some slot ∧
    getNode exampleTreemap 2 = Done slot.
Proof.
  assert (Z.of_nat (length (node exampleTreemap)) <= INT_MAX) as Hsz
    by (unfold INT_MAX; simpl; lia).
  split; [exact Hsz|]. split; [|split].
  - apply (getNode_in_and_out_of_range exampleTreemap 7 Hsz).
    right. simpl. lia.
  - apply (getNode_in_and_out_of_range exampleTreemap (-1) Hsz).
    left. lia.
  - apply (getNode_in_and_out_of_range exampleTreemap 2 Hsz).
    simpl. lia.
Defined.

(** ** Termination of the loop on any closed store *)

Lemma flagged_insert_clear flag h a nd :
  h !! a = Some nd → isFlag flag nd = true →
  (size (flagged flag (<[a := clearFlag flag nd]> h)) <
   size (flagged flag h))%nat.
Proof.
  intros Ha Hf. unfold flagged.
  rewrite map_filter_insert_False
    by (simpl; rewrite isFlag_clearFlag; discriminate).
  rewrite map_filter_delete.
  assert (filter (λ kv : addr * TmNode, isFlag flag kv.2 = true) h !! a
          = Some nd) as Hin by (by apply map_lookup_filter_Some).
  rewrite map_size_delete_Some by eauto.
  assert (size (filter (λ kv : addr * TmNode, isFlag flag kv.2 = true) h)
          ≠ 0%nat); [|lia].
  intros E%map_size_empty_inv. rewrite E in Hin. done.
Qed.

Lemma flagged_size_zero flag h a nd :
  size (flagged flag h) = 0%nat → h !! a = Some nd → isFlag flag nd = false.
Proof.
  intros E%map_size_empty_inv Ha.
  destruct (isFlag flag nd) eqn:Hf; [|done].
  assert (flagged flag h !! a = Some nd) as Hin
    by (by apply map_lookup_filter_Some).
  rewrite E in Hin. done.
Qed.

Lemma closed_insert h a nd nd' :
  closed h → h !! a = Some nd → parent nd' = parent nd →
  closed (<[a := nd']> h).
Proof.
  intros Hc Ha Hp b nb p Hb Hpb.
  destruct (decide (a = b)) as [->|Hne].
  - rewrite lookup_insert_eq in Hb. simplify_eq.
    rewrite Hp in Hpb. destruct (Hc _ _ _ Ha Hpb) as [x Hx].
    destruct (decide (b = p)) as [->|?].
    + rewrite lookup_insert_eq. eauto.
    + rewrite lookup_insert_ne by done. eauto.
  - rewrite lookup_insert_ne in Hb by done.
    destruct (Hc _ _ _ Hb Hpb) as [x Hx].
    destruct (decide (a = p)) as [->|?].
    + rewrite lookup_insert_eq. eauto.
    + rewrite lookup_insert_ne by done. eauto.
Qed.

Lemma statusChange_refl flag h : statusChange flag h h.
Proof. intros b. by left. Qed.

Lemma statusChange_step flag h a nd h' :
  h !! a = Some nd → isFlag flag nd = true →
  statusChange flag (<[a := clearFlag flag nd]> h) h' →
  statusChange flag h h'.
Proof.
  intros Ha Hf Hs b. destruct (Hs b) as [E|(nb & E1 & E2)].
  - destruct (decide (a = b)) as [->|Hne].
    + rewrite lookup_insert_eq in E. right. eauto.
    + rewrite lookup_insert_ne in E by done. by left.
  - destruct (decide (a = b)) as [->|Hne].
    + rewrite lookup_insert_eq in E1. simplify_eq. right.
      exists nd. split; [done|]. rewrite E2. f_equal.
      unfold clearFlag, setStatus. simpl. f_equal.
      rewrite <- Z.land_assoc. by rewrite Z.land_diag.
    + rewrite lookup_insert_ne in E1 by done. right. eauto.
Qed.

(** With fuel for one pass per flagged node the loop returns on every
    closed store, whatever the shape of the parent links. *)
Lemma resetFlagLoop_returns flag fuel : ∀ n h,
  closed h →
  (∀ a, n = Some a → is_Some (h !! a)) →
  (size (flagged flag h) ≤ fuel)%nat →
  ∃ h', resetFlagLoop fuel flag n h = Done h' ∧ statusChange flag h h'.
Proof.
  induction fuel as [|fuel IH]; intros n h Hc Hn Hsz;
    rewrite resetFlagLoop_unfold; destruct n as [a|];
    try (eexists; split; [done|apply statusChange_refl]).
  - destruct (Hn a eq_refl) as [nd Ha]. rewrite Ha. simpl.
    rewrite (flagged_size_zero flag h a nd) by (done || lia).
    eexists; split; [done|apply statusChange_refl].
  - destruct (Hn a eq_refl) as [nd Ha]. rewrite Ha. simpl.
    destruct (isFlag flag nd) eqn:Hf;
      [|eexists; split; [done|apply statusChange_refl]].
    destruct (IH (parent nd) (<[a := clearFlag flag nd]> h))
      as (h' & Hrun & Hs).
    + by eapply closed_insert.
    + intros p Hp. destruct (Hc _ _ _ Ha Hp) as [x Hx].
      destruct (decide (a = p)) as [->|?].
      * rewrite lookup_insert_eq. eauto.
      * rewrite lookup_insert_ne by done. eauto.
    + pose proof (flagged_insert_clear flag h a nd Ha Hf). lia.
    + exists h'. split; [done|]. by eapply statusChange_step.
Qed.

Lemma flagged_size flag h : (size (flagged flag h) ≤ size h)%nat.
Proof. unfold flagged. apply map_subseteq_size, map_filter_subseteq. Qed.

(** The fuel that [resetFlagUpToRoot] gives its loop is never used up, on
    any store: a run ends in [Done], or in [Fault] at a dangling pointer. *)
Lemma resetFlagLoop_fuel flag fuel : ∀ n h,
  (size (flagged flag h) ≤ fuel)%nat →
  resetFlagLoop fuel flag n h ≠ OutOfFuel.
Proof.
  induction fuel as [|fuel IH]; intros n h Hsz;
    rewrite resetFlagLoop_unfold; destruct n as [a|]; try done;
    destruct (h !! a) as [nd|] eqn:Ha; simpl; try done.
  - by rewrite (flagged_size_zero flag h a nd) by (done || lia).
  - destruct (isFlag flag nd) eqn:Hf; [|done].
    apply IH. pose proof (flagged_insert_clear flag h a nd Ha Hf). lia.
Qed.

Lemma resetFlagUpToRoot_fuel G this flag m :
  resetFlagUpToRoot G this flag m ≠ OutOfFuel.
Proof.
  unfold resetFlagUpToRoot.
  destruct (nodes m !! this) as [self|]; simpl; [|done].
  pose proof (resetFlagLoop_fuel flag (size (nodes m)) (Some this) (nodes m)
                (flagged_size _ _)) as H.
  destruct (resetFlagLoop _ _ _ _) as [h'| |]; simpl; try done.
  destruct (Z.land flag G =? 0); [done|].
  destruct (tree self) as [t|]; simpl; [|done].
  by destruct (treemaps m !! t).
Qed.

(** ** Stores of the same shape *)

Lemma nodeSim_refl G n : nodeSim G n n.
Proof. by repeat split. Qed.

Lemma nodeSim_sym G n1 n2 : nodeSim G n1 n2 → nodeSim G n2 n1.
Proof. intros (?&?&?&?&?&?&?). by repeat split. Qed.

Lemma nodeSim_trans G n1 n2 n3 :
  nodeSim G n1 n2 → nodeSim G n2 n3 → nodeSim G n1 n3.
Proof. intros (?&?&?&?&?&?&?) (?&?&?&?&?&?&?). repeat split; congruence. Qed.

Lemma sameShape_refl G m : sameShape G m m.
Proof.
  split; [|done]. intros b. destruct (nodes m !! b); constructor.
  apply nodeSim_refl.
Qed.

Lemma sameShape_sym G m1 m2 : sameShape G m1 m2 → sameShape G m2 m1.
Proof.
  intros [H1 H2]. split; [|done]. intros b.
  destruct (H1 b); constructor. by apply nodeSim_sym.
Qed.

Lemma sameShape_trans G m1 m2 m3 :
  sameShape G m1 m2 → sameShape G m2 m3 → sameShape G m1 m3.
Proof.
  intros [H1 H2] [H3 H4]. split; [|congruence]. intros b.
  specialize (H1 b). specialize (H3 b).
  destruct H1 as [n1 n2 H12|]; inversion H3; subst; constructor.
  by eapply nodeSim_trans.
Qed.

Lemma sameShape_write G m1 m2 a n1 n2 :
  sameShape G m1 m2 → nodeSim G n1 n2 →
  sameShape G (writeNode a n1 m1) (writeNode a n2 m2).
Proof.
  intros [H1 H2] Hn. split; [|done]. intros b. simpl.
  destruct (decide (a = b)) as [->|Hne].
  - rewrite !lookup_insert_eq. by constructor.
  - rewrite !lookup_insert_ne by done. apply H1.
Qed.

Lemma sameShape_writeTreemap G m1 m2 t tm :
  sameShape G m1 m2 →
  sameShape G (writeTreemap t tm m1) (writeTreemap t tm m2).
Proof. intros [H1 H2]. split; [done|]. simpl. by rewrite H2. Qed.

Lemma resultRel_bind {A B A' B'} (R : A → A' → Prop) (S : B → B' → Prop)
    (r1 : result A) (r2 : result A') (k1 : A → result B) (k2 : A' → result B') :
  resultRel R r1 r2 →
  (∀ x1 x2, R x1 x2 → resultRel S (k1 x1) (k2 x2)) →
  resultRel S (r1 ≫= k1) (r2 ≫= k2).
Proof. destruct r1, r2; simpl; try done. intros H Hk. by apply Hk. Qed.

Lemma resultRel_deref {A} (o : option A) : resultRel eq (deref o) (deref o).
Proof. by destruct o. Qed.

Lemma resultRel_Done {A B} (R : A → B → Prop) r1 r2 a :
  resultRel R r1 r2 → r1 = Done a → ∃ b, r2 = Done b ∧ R a b.
Proof. intros H ->. destruct r2; simpl in H; try done. eauto. Qed.

Lemma sameShape_read G m1 m2 a :
  sameShape G m1 m2 → resultRel (nodeSim G) (readNode a m1) (readNode a m2).
Proof. intros [H _]. unfold readNode. by destruct (H a). Qed.

Lemma sameShape_siblingOf G m1 m2 s :
  sameShape G m1 m2 → resultRel eq (siblingOf s m1) (siblingOf s m2).
Proof.
  intros H. unfold siblingOf.
  eapply resultRel_bind; [by apply sameShape_read|].
  intros n1 n2 (_&Hp&_). rewrite Hp.
  eapply resultRel_bind; [apply resultRel_deref|]. intros p ? <-.
  eapply resultRel_bind; [by apply sameShape_read|].
  intros p1 p2 (_&_&Hc0&Hc1&_). rewrite Hc0, Hc1.
  repeat case_bool_decide; try done;
    (eapply resultRel_bind; [apply resultRel_deref|]); by intros ?? <-.
Qed.

Lemma sameShape_replaceChild G m1 m2 q t old new :
  sameShape G m1 m2 →
  resultRel (sameShape G) (replaceChild q t old new m1)
    (replaceChild q t old new m2).
Proof.
  intros H. unfold replaceChild. destruct q as [qa|].
  - eapply resultRel_bind; [by apply sameShape_read|].
    intros n1 n2 Hn. pose proof Hn as (?&?&Hc0&Hc1&?&?&?). rewrite Hc0, Hc1.
    repeat case_bool_decide; try done; simpl;
      (apply sameShape_write; [done|]); by repeat split.
  - eapply resultRel_bind; [apply resultRel_deref|]. intros ta ? <-.
    rewrite (proj2 H).
    eapply resultRel_bind; [apply resultRel_deref|]. intros tm ? <-.
    simpl. by apply sameShape_writeTreemap.
Qed.

Lemma sameShape_detach G m1 m2 s :
  sameShape G m1 m2 →
  resultRel (λ x y, x.1 = y.1 ∧ sameShape G x.2 y.2)
    (detach s m1) (detach s m2).
Proof.
  intros H. unfold detach.
  eapply resultRel_bind; [by apply sameShape_read|].
  intros n1 n2 (_&Hp&_). rewrite Hp.
  eapply resultRel_bind; [apply resultRel_deref|]. intros p ? <-.
  eapply resultRel_bind; [by apply sameShape_read|].
  intros p1 p2 (_&Hpp&_&_&Ht&_). rewrite Hpp, Ht.
  eapply resultRel_bind; [by eapply sameShape_siblingOf|].
  intros [w o] ? <-.
  eapply resultRel_bind; [by apply sameShape_replaceChild|].
  intros m1' m2' H'.
  eapply resultRel_bind; [by apply sameShape_read|].
  intros o1 o2 Ho. simpl. split; [done|].
  apply sameShape_write; [done|].
  destruct Ho as (?&?&?&?&?&?&?). by repeat split.
Qed.

Lemma sameShape_attach G m1 m2 s p a w :
  sameShape G m1 m2 →
  resultRel (sameShape G) (attach s p a w m1) (attach s p a w m2).
Proof.
  intros H. unfold attach.
  eapply resultRel_bind; [by apply sameShape_read|].
  intros a1 a2 (_&Hp&_&_&Ht&_). rewrite Hp, Ht.
  eapply resultRel_bind; [by apply sameShape_replaceChild|].
  intros m1' m2' H'.
  eapply resultRel_bind; [by apply sameShape_read|].
  intros p1 p2 Hpn.
  eapply resultRel_bind.
  - apply sameShape_read. apply sameShape_write; [done|].
    destruct Hpn as (?&?&?&?&?&?&?). destruct (w =? 0); by repeat split.
  - intros a1' a2' Ha'. simpl.
    apply sameShape_write.
    + apply sameShape_write; [done|].
      destruct Hpn as (?&?&?&?&?&?&?). destruct (w =? 0); by repeat split.
    + destruct Ha' as (?&?&?&?&?&?&?). by repeat split.
Qed.

(** ** Facts about well-formed trees *)

Lemma wellFormed_closed t m : wellFormed t m → closed (nodes m).
Proof.
  intros Hwf a nd p Ha Hp.
  destruct (wf_parent _ _ Hwf a nd p Ha Hp) as (np & Hnp & _). eauto.
Qed.

Lemma wellFormed_no_self t m a nd :
  wellFormed t m → nodes m !! a = Some nd → parent nd ≠ Some a.
Proof.
  intros Hwf Ha Hp.
  destruct (wf_acyclic _ _ Hwf a) as [l Hl]; [eauto|].
  pose proof (ancestors_NoDup _ _ _ Hl) as Hnd.
  inversion Hl as [? ? ? Hp' | ? ? p l' Ha' Hp' Hl']; simplify_eq.
  apply ancestors_head in Hl' as [l'' ->].
  apply NoDup_cons in Hnd as [Hn _]. apply Hn. left.
Qed.

Lemma wellFormed_no_2cycle t m a na b nb :
  wellFormed t m → nodes m !! a = Some na → parent na = Some b →
  nodes m !! b = Some nb → parent nb ≠ Some a.
Proof.
  intros Hwf Ha Hpa Hb Hpb.
  destruct (wf_acyclic _ _ Hwf a) as [l Hl]; [eauto|].
  pose proof (ancestors_NoDup _ _ _ Hl) as Hnd.
  inversion Hl as [? ? ? Hp' | ? ? p l' Ha' Hp' Hl']; simplify_eq.
  inversion Hl' as [? ? ? Hp'' | ? ? p' l'' Hb' Hp'' Hl'']; simplify_eq.
  apply ancestors_head in Hl'' as [l3 ->].
  apply NoDup_cons in Hnd as [Hn _]. apply Hn. right. left.
Qed.

(** A node with a parent has a sibling; [siblingOf] finds it. *)
Lemma wellFormed_family t m s ns p :
  wellFormed t m → nodes m !! s = Some ns → parent ns = Some p →
  ∃ np o no w,
    nodes m !! p = Some np ∧ nodes m !! o = Some no ∧ parent no = Some p ∧
    siblingOf s m = Done (w, o) ∧
    ((w = 0 ∧ child0 np = Some s ∧ child1 np = Some o) ∨
     (w = 1 ∧ child0 np = Some o ∧ child1 np = Some s)) ∧
    s ≠ p ∧ o ≠ p ∧ s ≠ o.
Proof.
  intros Hwf Hs Hp.
  destruct (wf_parent _ _ Hwf s ns p Hs Hp) as (np & Hnp & Hc).
  assert (s ≠ p) as Hsp.
  { intros ->. exact (wellFormed_no_self _ _ _ _ Hwf Hs Hp). }
  unfold siblingOf, readNode. rewrite Hs. simpl. rewrite Hp. simpl.
  rewrite Hnp. simpl.
  destruct (child0 np) as [c0|] eqn:E0; destruct (child1 np) as [c1|] eqn:E1;
    try (by apply (wf_binary _ _ Hwf p np Hnp) in E0; congruence);
    try (by apply (wf_binary _ _ Hwf p np Hnp) in E1; congruence);
    [|destruct Hc; congruence].
  pose proof (wf_distinct _ _ Hwf p np c0 Hnp E0) as Hd. rewrite E1 in Hd.
  destruct (wf_child _ _ Hwf p np c0 Hnp (or_introl E0)) as (n0 & Hn0 & Hp0).
  destruct (wf_child _ _ Hwf p np c1 Hnp (or_intror E1)) as (n1 & Hn1 & Hp1).
  destruct Hc as [Hc|Hc]; simplify_eq.
  - rewrite bool_decide_eq_true_2 by done. simpl.
    exists np, c1, n1, 0. repeat split; eauto; try congruence.
    intros ->. exact (wellFormed_no_self _ _ _ _ Hwf Hn1 Hp1).
  - rewrite bool_decide_eq_false_2 by congruence.
    rewrite bool_decide_eq_true_2 by done. simpl.
    exists np, c0, n0, 1. repeat split; eauto; try congruence.
    intros ->. exact (wellFormed_no_self _ _ _ _ Hwf Hn0 Hp0).
Qed.

(** ** [replaceChild] *)

Lemma swapChild_parent old new nd : parent (swapChild old new nd) = parent nd.
Proof. unfold swapChild. by case_bool_decide. Qed.

Lemma swapChild_sameButLinks old new nd :
  sameButLinks (swapChild old new nd) nd.
Proof. unfold swapChild. by case_bool_decide. Qed.

Lemma swapChild_inverse old new nd :
  hasChild nd old → ¬ hasChild nd new →
  swapChild new old (swapChild old new nd) = nd.
Proof.
  unfold hasChild, swapChild. intros Ho Hn. destruct nd as [i st pa c0 c1 tr gf].
  simpl in *. repeat (case_bool_decide; simpl in *); simplify_eq;
    try done; try tauto.
  destruct Ho; simplify_eq. done.
Qed.

Lemma swapChild_hasChild old new nd :
  hasChild nd old → hasChild (swapChild old new nd) new.
Proof.
  unfold hasChild, swapChild. intros Ho.
  case_bool_decide; simpl; [by left|by right].
Qed.

Lemma replaceChild_Some q t old new m nq :
  nodes m !! q = Some nq → hasChild nq old →
  replaceChild (Some q) t old new m =
  Done (writeNode q (swapChild old new nq) m).
Proof.
  intros Hq Hc. unfold replaceChild, readNode, swapChild. rewrite Hq. simpl.
  case_bool_decide; [done|]. case_bool_decide; [done|].
  destruct Hc; congruence.
Qed.

Lemma replaceChild_None t old new m tm :
  treemaps m !! t = Some tm →
  replaceChild None (Some t) old new m =
  Done (writeTreemap t (setRoot (Some new) tm) m).
Proof. intros Ht. unfold replaceChild. simpl. by rewrite Ht. Qed.

(** ** The two halves of a move *)

Arguments replaceChild : simpl never.
Arguments siblingOf : simpl never.

Ltac lookups :=
  repeat (rewrite lookup_insert_eq ||
          (rewrite lookup_insert_ne by (done || congruence))).

Lemma setRoot_setRoot r1 r2 tm : setRoot r2 (setRoot r1 tm) = setRoot r2 tm.
Proof. done. Qed.

Lemma setRoot_id tm : setRoot (root tm) tm = tm.
Proof. by destruct tm. Qed.

Lemma setParent_setParent p1 p2 nd :
  setParent p2 (setParent p1 nd) = setParent p2 nd.
Proof. done. Qed.

Lemma setParent_id nd : setParent (parent nd) nd = nd.
Proof. by destruct nd. Qed.

(** Writing all links of [X] gives [nd] when [nd] has these links. *)
Lemma relink_sameButLinks X nd pa c0 c1 :
  sameButLinks X nd → parent nd = pa → child0 nd = c0 → child1 nd = c1 →
  setParent pa (setChildren c0 c1 X) = nd.
Proof.
  intros (Hi & Hs & Ht & Hf) <- <- <-. destruct X, nd. simpl in *. by subst.
Qed.

(** Putting [p] back above the old sibling [o] undoes [detach], whatever
    happened to the links of [p] in between. *)
Lemma detach_attach_back t m s ns p np o no w :
  wellFormed t m →
  nodes m !! s = Some ns → parent ns = Some p →
  nodes m !! p = Some np → nodes m !! o = Some no → parent no = Some p →
  siblingOf s m = Done (w, o) →
  (w = 0 ∧ child0 np = Some s ∧ child1 np = Some o) ∨
  (w = 1 ∧ child0 np = Some o ∧ child1 np = Some s) →
  s ≠ p → o ≠ p → s ≠ o →
  ∃ m', detach s m = Done (p, parent np, m') ∧
    nodes m' !! p = Some np ∧
    ∀ X, sameButLinks X np → attach s p o w (writeNode p X m') = Done m.
Proof.
  intros Hwf Hs Hps Hp Ho Hpo Hsib Hw Hsp Hop Hso.
  unfold detach, readNode. rewrite Hs. simpl. rewrite Hps. simpl.
  rewrite Hp. simpl. rewrite Hsib. simpl.
  pose proof (wf_owner _ _ Hwf p np Hp) as Htp.
  pose proof (wf_owner _ _ Hwf o no Ho) as Hto.
  destruct (parent np) as [g|] eqn:Hg.
  - destruct (wf_parent _ _ Hwf p np g Hp Hg) as (ng & Hng & Hcg).
    assert (g ≠ p) as Hgp
      by (intros ->; exact (wellFormed_no_self _ _ _ _ Hwf Hp Hg)).
    assert (g ≠ o) as Hgo
      by (intros ->; exact (wellFormed_no_2cycle _ _ _ _ _ _ Hwf Ho Hpo Hp Hg)).
    assert (¬ hasChild ng o) as Hngo.
    { intros Hc. destruct (wf_child _ _ Hwf g ng o Hng Hc) as (no' & ? & ?).
      simplify_eq. }
    rewrite (replaceChild_Some g _ p o m ng Hng Hcg). simpl.
    unfold readNode. simpl. lookups. rewrite Ho. simpl.
    eexists. split; [done|]. split; [simpl; by lookups|]. intros X HX.
    unfold attach, readNode. simpl. lookups. simpl.
    erewrite replaceChild_Some;
      [|simpl; lookups; done|by apply swapChild_hasChild].
    simpl. unfold readNode. simpl. lookups. simpl. lookups. simpl.
    rewrite swapChild_inverse by done.
    rewrite setParent_setParent, <- Hpo, setParent_id.
    assert ((if w =? 0 then setParent (Some g) (setChildren (Some s) (Some o) X)
             else setParent (Some g) (setChildren (Some o) (Some s) X)) = np)
      as Hnp.
    { destruct Hw as [(-> & ? & ?)|(-> & ? & ?)]; simpl;
        by apply relink_sameButLinks. }
    replace (setParent (Some g)
               (if w =? 0 then setChildren (Some s) (Some o) X
                else setChildren (Some o) (Some s) X)) with np
      by (rewrite <- Hnp; by destruct (w =? 0)).
    f_equal. destruct m as [h tms]. unfold writeNode. simpl in *. f_equal.
    apply map_eq. intros i.
    destruct (decide (i = o)) as [->|?]; [by lookups|].
    destruct (decide (i = p)) as [->|?]; [by lookups|].
    destruct (decide (i = g)) as [->|?]; [by lookups|].
    by lookups.
  - destruct (wf_root _ _ Hwf) as (tm & Htm & Hroot).
    pose proof (Hroot p np Hp Hg) as Hrp.
    rewrite Htp. rewrite (replaceChild_None t p o m tm Htm). simpl.
    unfold readNode. simpl. rewrite Ho. simpl.
    eexists. split; [done|]. split; [simpl; by lookups|]. intros X HX.
    unfold attach, readNode. simpl. lookups. simpl.
    rewrite Hto. erewrite replaceChild_None; [|simpl; by lookups].
    simpl. unfold readNode. simpl. lookups. simpl. lookups. simpl.
    rewrite setParent_setParent, <- Hpo, setParent_id.
    assert ((if w =? 0 then setParent None (setChildren (Some s) (Some o) X)
             else setParent None (setChildren (Some o) (Some s) X)) = np)
      as Hnp.
    { destruct Hw as [(-> & ? & ?)|(-> & ? & ?)]; simpl;
        by apply relink_sameButLinks. }
    replace (setParent None
               (if w =? 0 then setChildren (Some s) (Some o) X
                else setChildren (Some o) (Some s) X)) with np
      by (rewrite <- Hnp; by destruct (w =? 0)).
    f_equal. destruct m as [h tms]. unfold writeNode, writeTreemap.
    simpl in *. f_equal.
    + apply map_eq. intros i.
      destruct (decide (i = o)) as [->|?]; [by lookups|].
      destruct (decide (i = p)) as [->|?]; [by lookups|].
      by lookups.
    + rewrite insert_insert_eq, setRoot_setRoot, Hpo, <- Hrp, setRoot_id.
      by apply insert_id.
Qed.

Lemma wellFormed_no_3cycle t m a na b nb c nc :
  wellFormed t m → nodes m !! a = Some na → parent na = Some b →
  nodes m !! b = Some nb → parent nb = Some c →
  nodes m !! c = Some nc → parent nc ≠ Some a.
Proof.
  intros Hwf Ha Hpa Hb Hpb Hc Hpc.
  destruct (wf_acyclic _ _ Hwf a) as [l Hl]; [eauto|].
  pose proof (ancestors_NoDup _ _ _ Hl) as Hnd.
  inversion Hl as [? ? ? Hp1 | ? ? p1 l1 Ha1 Hp1 Hl1]; simplify_eq.
  inversion Hl1 as [? ? ? Hp2 | ? ? p2 l2 Ha2 Hp2 Hl2]; simplify_eq.
  inversion Hl2 as [? ? ? Hp3 | ? ? p3 l3 Ha3 Hp3 Hl3]; simplify_eq.
  apply ancestors_head in Hl3 as [l4 ->].
  apply NoDup_cons in Hnd as [Hn _]. apply Hn. right. right. left.
Qed.

Lemma swapChild_no_old old new nd :
  hasChild nd old → old ≠ new →
  (∀ c, child0 nd = Some c → child1 nd ≠ Some c) →
  ¬ hasChild (swapChild old new nd) old.
Proof.
  unfold hasChild, swapChild. intros Ho Hne Hd.
  case_bool_decide as E; simpl; intros [H|H]; simplify_eq;
    try (by eapply Hd); destruct Ho; congruence.
Qed.

Lemma swapChild_keeps old new nd x :
  hasChild nd old → hasChild nd x → x ≠ old →
  hasChild (swapChild old new nd) x.
Proof.
  unfold hasChild, swapChild. intros Ho Hx Hne.
  case_bool_decide as E; simpl.
  - right. destruct Hx; congruence.
  - left. destruct Ho, Hx; congruence.
Qed.

Lemma wellFormed_child_parent t m q nq c nc :
  wellFormed t m → nodes m !! q = Some nq → hasChild nq c →
  nodes m !! c = Some nc → parent nc = Some q.
Proof.
  intros Hwf Hq Hc Hnc.
  destruct (wf_child _ _ Hwf q nq c Hq Hc) as (nc' & ? & ?). by simplify_eq.
Qed.

(** After [detach] the tree is ready for [attach] above any node [a] other
    than [s] and [p]. *)
Lemma detach_floating t m s ns p np o no w a na :
  wellFormed t m →
  nodes m !! s = Some ns → parent ns = Some p →
  nodes m !! p = Some np → nodes m !! o = Some no → parent no = Some p →
  siblingOf s m = Done (w, o) →
  (w = 0 ∧ child0 np = Some s ∧ child1 np = Some o) ∨
  (w = 1 ∧ child0 np = Some o ∧ child1 np = Some s) →
  s ≠ p → o ≠ p → s ≠ o →
  nodes m !! a = Some na → a ≠ s → a ≠ p →
  ∃ m', detach s m = Done (p, parent np, m') ∧ floating s p a m'.
Proof.
  intros Hwf Hs Hps Hp Ho Hpo Hsib Hw Hsp Hop Hso Ha Has Hap.
  unfold detach, readNode. rewrite Hs. simpl. rewrite Hps. simpl.
  rewrite Hp. simpl. rewrite Hsib. simpl.
  pose proof (wf_owner _ _ Hwf p np Hp) as Htp.
  pose proof (wf_owner _ _ Hwf o no Ho) as Hto.
  pose proof (wf_owner _ _ Hwf a na Ha) as Hta.
  assert (hasChild np a → a = o) as Hnpa.
  { intros Hc. unfold hasChild in Hc.
    destruct Hw as [(_ & ? & ?)|(_ & ? & ?)]; destruct Hc; congruence. }
  assert (∀ c, child0 np = Some c → child1 np ≠ Some c) as Hdp
    by (intros c; apply (wf_distinct _ _ Hwf p np c Hp)).
  destruct (parent np) as [g|] eqn:Hg.
  - destruct (wf_parent _ _ Hwf p np g Hp Hg) as (ng & Hng & Hcg).
    assert (g ≠ p) as Hgp
      by (intros ->; exact (wellFormed_no_self _ _ _ _ Hwf Hp Hg)).
    assert (g ≠ o) as Hgo
      by (intros ->; exact (wellFormed_no_2cycle _ _ _ _ _ _ Hwf Ho Hpo Hp Hg)).
    assert (g ≠ s) as Hgs
      by (intros ->; exact (wellFormed_no_2cycle _ _ _ _ _ _ Hwf Hs Hps Hp Hg)).
    assert (∀ q nq, nodes m !! q = Some nq → hasChild nq p → q = g) as Hpg.
    { intros q nq Hq Hc.
      pose proof (wellFormed_child_parent _ _ _ _ _ _ Hwf Hq Hc Hp).
      congruence. }
    assert (∀ c, child0 ng = Some c → child1 ng ≠ Some c) as Hdg
      by (intros c; apply (wf_distinct _ _ Hwf g ng c Hng)).
    rewrite (replaceChild_Some g _ p o m ng Hng Hcg). simpl.
    unfold readNode. simpl. lookups. rewrite Ho. simpl.
    eexists. split; [done|].
    unfold floating. simpl.
    destruct (decide (a = o)) as [->|Hao]; [|destruct (decide (a = g)) as [->|Hag]].
    + (* above the old sibling *)
      eexists; eexists; eexists. lookups. do 4 (split; [done|]). simpl.
      split; [done|]. split; [done|]. eexists. lookups. split; [done|].
      split; [by apply swapChild_hasChild|by apply swapChild_no_old].
    + (* above the grandparent *)
      eexists; eexists; eexists. lookups. do 4 (split; [done|]).
      rewrite swapChild_parent. simplify_eq.
      destruct (parent na) as [q|] eqn:Hq.
      * assert (q ≠ p)
          by (intros ->; exact (wellFormed_no_2cycle _ _ _ _ _ _ Hwf Hp Hg Ha Hq)).
        assert (q ≠ g)
          by (intros ->; exact (wellFormed_no_self _ _ _ _ Hwf Ha Hq)).
        assert (q ≠ o)
          by (intros ->;
              exact (wellFormed_no_3cycle _ _ _ _ _ _ _ _ Hwf Ho Hpo Hp Hg Ha Hq)).
        split; [done|]. split; [done|].
        destruct (wf_parent _ _ Hwf g na q Ha Hq) as (nq & Hnq & Hcq).
        exists nq. lookups. split; [done|]. split; [done|].
        intros Hc. apply (Hpg q nq Hnq) in Hc. done.
      * destruct (wf_root _ _ Hwf) as (tm & Htm & Hroot).
        exists t, tm. destruct (swapChild_sameButLinks p o na) as (_&_&->&_).
        repeat split; eauto.
    + (* above any other node *)
      eexists; eexists; eexists. lookups. do 4 (split; [done|]).
      destruct (parent na) as [q|] eqn:Hq.
      * destruct (wf_parent _ _ Hwf a na q Ha Hq) as (nq & Hnq & Hcq).
        assert (q ≠ p) by (intros ->; simplify_eq; auto).
        assert (q ≠ a)
          by (intros ->; exact (wellFormed_no_self _ _ _ _ Hwf Ha Hq)).
        split; [done|]. split; [done|].
        destruct (decide (q = o)) as [->|?]; [|destruct (decide (q = g)) as [->|?]].
        -- assert (nq = no) as -> by congruence.
           eexists. lookups. split; [done|]. split; [done|].
           intros Hc. apply (Hpg o no Ho) in Hc. done.
        -- assert (nq = ng) as -> by congruence.
           eexists. lookups. split; [done|].
           split; [by apply swapChild_keeps|by apply swapChild_no_old].
        -- exists nq. lookups. split; [done|]. split; [done|].
           intros Hc. apply (Hpg q nq Hnq) in Hc. done.
      * destruct (wf_root _ _ Hwf) as (tm & Htm & Hroot).
        exists t, tm. repeat split; eauto.
  - destruct (wf_root _ _ Hwf) as (tm & Htm & Hroot).
    assert (∀ q nq, nodes m !! q = Some nq → hasChild nq p → False) as Hpg.
    { intros q nq Hq Hc.
      pose proof (wellFormed_child_parent _ _ _ _ _ _ Hwf Hq Hc Hp).
      congruence. }
    rewrite Htp. rewrite (replaceChild_None t p o m tm Htm). simpl.
    unfold readNode. simpl. rewrite Ho. simpl.
    eexists. split; [done|].
    unfold floating. simpl.
    destruct (decide (a = o)) as [->|Hao].
    + eexists; eexists; eexists. lookups. do 4 (split; [done|]). simpl.
      exists t, (setRoot (Some o) tm). lookups. by repeat split.
    + eexists; eexists; eexists. lookups. do 4 (split; [done|]).
      destruct (parent na) as [q|] eqn:Hq.
      * destruct (wf_parent _ _ Hwf a na q Ha Hq) as (nq & Hnq & Hcq).
        assert (q ≠ p) by (intros ->; simplify_eq; auto).
        assert (q ≠ a)
          by (intros ->; exact (wellFormed_no_self _ _ _ _ Hwf Ha Hq)).
        split; [done|]. split; [done|].
        destruct (decide (q = o)) as [->|?].
        -- assert (nq = no) as -> by congruence.
           eexists. lookups. split; [done|]. split; [done|].
           intros Hc. by apply (Hpg o no Ho) in Hc.
        -- exists nq. lookups. split; [done|]. split; [done|].
           intros Hc. by apply (Hpg q nq Hnq) in Hc.
      * pose proof (Hroot a na Ha Hq). pose proof (Hroot p np Hp Hg).
        congruence.
Qed.

(** [detach] undoes [attach], up to the links of [p]. *)
Lemma attach_detach s p a w m :
  floating s p a m → a ≠ s → a ≠ p → s ≠ p →
  ∃ m1 np na X,
    nodes m !! p = Some np ∧ nodes m !! a = Some na ∧
    attach s p a w m = Done m1 ∧
    siblingOf s m1 = Done (if w =? 0 then 0 else 1, a) ∧
    sameButLinks X np ∧
    detach s m1 = Done (p, parent na, writeNode p X m).
Proof.
  intros (ns & np & na & Hs & Hps & Hp & Ha & Hq) Has Hap Hsp.
  remember (setParent (parent na)
              (if w =? 0 then setChildren (Some s) (Some a) np
               else setChildren (Some a) (Some s) np)) as np' eqn:Enp'.
  assert (sameButLinks np' np) as HX by (subst np'; by destruct (w =? 0)).
  assert (parent np' = parent na) as Hpp by (by subst np').
  assert (tree np' = tree np) as Htp by (subst np'; by destruct (w =? 0)).
  assert ((child0 np' = Some s ∧ child1 np' = Some a ∧ (w =? 0) = true) ∨
          (child0 np' = Some a ∧ child1 np' = Some s ∧ (w =? 0) = false))
    as Hch by (subst np'; destruct (w =? 0); simpl; auto).
  destruct (parent na) as [q|] eqn:Hpa.
  - destruct Hq as (Hqp & Hqa & nq & Hnq & Hca & Hcp).
    remember (writeNode a (setParent (Some p) na)
                (writeNode p np' (writeNode q (swapChild a p nq) m)))
      as m1 eqn:Em1.
    assert (∃ ns', nodes m1 !! s = Some ns' ∧ parent ns' = Some p)
      as (ns' & Hs1 & Hps1).
    { subst m1. simpl. lookups. destruct (decide (q = s)) as [->|?].
      - lookups. eexists. split; [done|]. rewrite swapChild_parent.
        congruence.
      - lookups. eauto. }
    assert (nodes m1 !! p = Some np') as Hp1 by (subst m1; simpl; by lookups).
    assert (siblingOf s m1 = Done (if w =? 0 then 0 else 1, a)) as Hsib.
    { unfold siblingOf, readNode. rewrite Hs1. simpl. rewrite Hps1. simpl.
      rewrite Hp1. simpl.
      destruct Hch as [(-> & -> & ->)|(-> & -> & ->)].
      - by rewrite bool_decide_eq_true_2.
      - rewrite bool_decide_eq_false_2 by congruence.
        by rewrite bool_decide_eq_true_2. }
    exists m1, np, na, np'. do 2 (split; [done|]).
    split; [|split; [done|split; [done|]]].
    + unfold attach, readNode. rewrite Ha. simpl. rewrite Hpa.
      rewrite (replaceChild_Some q _ a p m nq Hnq Hca). simpl.
      unfold readNode. simpl. lookups. rewrite Hp. simpl. lookups.
      rewrite Ha. simpl. by subst m1 np'.
    + unfold detach, readNode. rewrite Hs1. simpl. rewrite Hps1. simpl.
      rewrite Hp1. simpl. rewrite Hsib. simpl. rewrite Hpp.
      erewrite replaceChild_Some;
        [|subst m1; simpl; lookups; done|by apply swapChild_hasChild].
      simpl. unfold readNode. subst m1. simpl. lookups. simpl.
      rewrite swapChild_inverse by done.
      rewrite setParent_setParent, <- Hpa, setParent_id.
      do 2 f_equal. destruct m as [h tms]. unfold writeNode. simpl in *.
      f_equal. apply map_eq. intros i.
      destruct (decide (i = a)) as [->|?]; [by lookups|].
      destruct (decide (i = q)) as [->|?]; [by lookups|].
      destruct (decide (i = p)) as [->|?]; by lookups.
  - destruct Hq as (t & tm & Hta & Htnp & Htm & Hroot).
    remember (writeNode a (setParent (Some p) na)
                (writeNode p np' (writeTreemap t (setRoot (Some p) tm) m)))
      as m1 eqn:Em1.
    assert (nodes m1 !! s = Some ns) as Hs1 by (subst m1; simpl; by lookups).
    assert (nodes m1 !! p = Some np') as Hp1 by (subst m1; simpl; by lookups).
    assert (siblingOf s m1 = Done (if w =? 0 then 0 else 1, a)) as Hsib.
    { unfold siblingOf, readNode. rewrite Hs1. simpl. rewrite Hps. simpl.
      rewrite Hp1. simpl.
      destruct Hch as [(-> & -> & ->)|(-> & -> & ->)].
      - by rewrite bool_decide_eq_true_2.
      - rewrite bool_decide_eq_false_2 by congruence.
        by rewrite bool_decide_eq_true_2. }
    exists m1, np, na, np'. do 2 (split; [done|]).
    split; [|split; [done|split; [done|]]].
    + unfold attach, readNode. rewrite Ha. simpl. rewrite Hpa, Hta.
      rewrite (replaceChild_None t a p m tm Htm). simpl.
      unfold readNode. simpl. rewrite Hp. simpl. lookups.
      rewrite Ha. simpl. by subst m1 np'.
    + unfold detach, readNode. rewrite Hs1. simpl. rewrite Hps. simpl.
      rewrite Hp1. simpl. rewrite Hsib. simpl. rewrite Hpp, Htp, Htnp.
      erewrite replaceChild_None; [|subst m1; simpl; by lookups].
      simpl. unfold readNode. subst m1. simpl. lookups. simpl.
      rewrite setParent_setParent, <- Hpa, setParent_id.
      do 2 f_equal. destruct m as [h tms]. unfold writeNode, writeTreemap.
      simpl in *. f_equal.
      * apply map_eq. intros i.
        destruct (decide (i = a)) as [->|?]; [by lookups|].
        destruct (decide (i = p)) as [->|?]; by lookups.
      * rewrite insert_insert_eq, setRoot_setRoot, <- Hroot, setRoot_id.
        by apply insert_id.
Qed.

(** The relinking of a move, undone by the relinking back above the old
    sibling: the store is the same again, status words included. *)
Lemma relink_inverse t m s ns p a na :
  wellFormed t m →
  nodes m !! s = Some ns → parent ns = Some p →
  nodes m !! a = Some na → a ≠ s → a ≠ p →
  ∃ w o g m' m1 g' m'',
    siblingOf s m = Done (w, o) ∧
    detach s m = Done (p, g, m') ∧
    attach s p a w m' = Done m1 ∧
    siblingOf s m1 = Done (if w =? 0 then 0 else 1, a) ∧
    detach s m1 = Done (p, g', m'') ∧
    attach s p o w m'' = Done m.
Proof.
  intros Hwf Hs Hps Ha Has Hap.
  destruct (wellFormed_family _ _ _ _ _ Hwf Hs Hps)
    as (np & o & no & w & Hp & Ho & Hpo & Hsib & Hw & Hsp & Hop & Hso).
  destruct (detach_attach_back _ _ _ _ _ _ _ _ _ Hwf Hs Hps Hp Ho Hpo Hsib Hw
              Hsp Hop Hso) as (m' & Hdet & Hp' & Hback).
  destruct (detach_floating _ _ _ _ _ _ _ _ _ _ _ Hwf Hs Hps Hp Ho Hpo Hsib Hw
              Hsp Hop Hso Ha Has Hap) as (m0' & Hdet' & Hfl).
  rewrite Hdet in Hdet'. simplify_eq.
  destruct (attach_detach s p a w m0' Hfl Has Hap Hsp)
    as (m1 & np1 & na1 & X & Hp1 & Ha1 & Hatt & Hsib1 & HX & Hdet1).
  exists w, o, (parent np), m0', m1, (parent na1), (writeNode p X m0').
  do 5 (split; [done|]).
  apply Hback. by simplify_eq.
Qed.

(** ** Relinking keeps the store closed *)

Lemma closed_insert_parent h a nd' :
  closed h → is_Some (h !! a) →
  (∀ p, parent nd' = Some p → is_Some (h !! p)) →
  closed (<[a := nd']> h).
Proof.
  intros Hc Ha Hp b nb p Hb Hpb.
  assert (is_Some (h !! p)) as [x Hx].
  { destruct (decide (a = b)) as [->|Hne].
    - rewrite lookup_insert_eq in Hb. simplify_eq. by apply Hp.
    - rewrite lookup_insert_ne in Hb by done. by eapply Hc. }
  destruct (decide (a = p)) as [->|?].
  - rewrite lookup_insert_eq. eauto.
  - rewrite lookup_insert_ne by done. eauto.
Qed.

Lemma is_Some_dom_eq (h h' : gmap addr TmNode) b :
  dom h' = dom h → is_Some (h !! b) → is_Some (h' !! b).
Proof. intros E H. apply elem_of_dom. rewrite E. by apply elem_of_dom. Qed.

Lemma replaceChild_dom_closed q t old new m m' :
  replaceChild q t old new m = Done m' →
  dom (nodes m') = dom (nodes m) ∧ (closed (nodes m) → closed (nodes m')).
Proof.
  unfold replaceChild, readNode. destruct q as [qa|].
  - destruct (nodes m !! qa) as [nq|] eqn:Hq; simpl; [|done].
    repeat case_bool_decide; intros [= <-]; simpl;
      (split; [by apply dom_insert_lookup_L|]); intros Hc;
      by eapply closed_insert.
  - destruct t as [ta|]; simpl; [|done].
    destruct (treemaps m !! ta); simpl; [|done]. by intros [= <-].
Qed.

Lemma detach_dom_closed s m p g m' :
  detach s m = Done (p, g, m') →
  dom (nodes m') = dom (nodes m) ∧ is_Some (nodes m !! p) ∧
  (closed (nodes m) →
     closed (nodes m') ∧ ∀ ga, g = Some ga → is_Some (nodes m !! ga)).
Proof.
  unfold detach, readNode.
  destruct (nodes m !! s) as [ns|] eqn:Hs; simpl; [|done].
  destruct (parent ns) as [p'|] eqn:Hps; simpl; [|done].
  destruct (nodes m !! p') as [np|] eqn:Hp; simpl; [|done].
  destruct (siblingOf s m) as [[w o]| |]; simpl; try done.
  destruct (replaceChild _ _ _ _ _) as [m1| |] eqn:Hrc; simpl; try done.
  destruct (nodes m1 !! o) as [no|] eqn:Ho; simpl; [|done].
  intros [= <- <- <-]. simpl.
  destruct (replaceChild_dom_closed _ _ _ _ _ _ Hrc) as [Hd Hc1].
  split; [by rewrite dom_insert_lookup_L|]. split; [eauto|].
  intros Hc. split.
  - apply closed_insert_parent; [by apply Hc1|eauto|].
    intros ga Hga. apply (is_Some_dom_eq (nodes m)); [done|]. by eapply Hc.
  - intros ga Hga. by eapply Hc.
Qed.

Lemma attach_dom_closed s p a w m m' :
  attach s p a w m = Done m' →
  dom (nodes m') = dom (nodes m) ∧ is_Some (nodes m !! p) ∧
  (closed (nodes m) → closed (nodes m')).
Proof.
  unfold attach, readNode.
  destruct (nodes m !! a) as [na|] eqn:Ha; simpl; [|done].
  destruct (replaceChild _ _ _ _ _) as [m1| |] eqn:Hrc; simpl; try done.
  destruct (replaceChild_dom_closed _ _ _ _ _ _ Hrc) as [Hd Hc1].
  destruct (nodes m1 !! p) as [np|] eqn:Hp; simpl; [|done].
  destruct (<[p := _]> (nodes m1) !! a) as [na'|] eqn:Ha'; simpl; [|done].
  intros [= <-]. simpl.
  assert (is_Some (nodes m !! p)) as Hpm
    by (apply (is_Some_dom_eq (nodes m1)); eauto).
  split; [|split; [done|]].
  - rewrite dom_insert_lookup_L by eauto.
    by rewrite dom_insert_lookup_L by eauto.
  - intros Hc. apply closed_insert_parent.
    + apply closed_insert_parent; [by apply Hc1|eauto|].
      intros q Hq. apply (is_Some_dom_eq (nodes m)); [done|].
      eapply (Hc a na); [done|]. by destruct (w =? 0).
    + eauto.
    + simpl. intros ? [= <-].
      destruct (decide (p = p)); [|done]. rewrite lookup_insert_eq. eauto.
Qed.

Lemma closed_sameShape G m1 m2 :
  sameShape G m1 m2 → closed (nodes m1) → closed (nodes m2).
Proof.
  intros [H _] Hc a nd p Ha Hp.
  pose proof (H a) as Ra. rewrite Ha in Ra.
  inversion Ra as [n1 n2 Hs E1 E2|]; subst.
  destruct Hs as (_ & Hpp & _). symmetry in E1.
  destruct (Hc a n1 p E1 ltac:(congruence)) as [x Hx].
  pose proof (H p) as Rp. rewrite Hx in Rp. inversion Rp; eauto.
Qed.

Lemma is_Some_sameShape G m1 m2 b :
  sameShape G m1 m2 → is_Some (nodes m1 !! b) → is_Some (nodes m2 !! b).
Proof.
  intros [H _] [x Hx]. pose proof (H b) as R. rewrite Hx in R.
  inversion R; eauto.
Qed.

(** ** Flag changes that leave [IS_GAUSSIAN_VALID] alone *)

Lemma land_clear_disjoint s flag G :
  Z.land flag G = 0 → Z.land (Z.land s (Z.lnot flag)) G = Z.land s G.
Proof.
  intros H. apply Z.bits_inj'. intros i Hi.
  rewrite !Z.land_spec, Z.lnot_spec by done.
  apply (f_equal (λ z, Z.testbit z i)) in H.
  rewrite Z.land_spec, Z.bits_0 in H.
  destruct (Z.testbit s i), (Z.testbit flag i), (Z.testbit G i); done.
Qed.

Lemma land_set_disjoint s flag G :
  Z.land flag G = 0 → Z.land (Z.lor s flag) G = Z.land s G.
Proof.
  intros H. rewrite Z.land_lor_distr_l, H. apply Z.lor_0_r.
Qed.

Lemma nodeSim_clearFlag G flag nd :
  Z.land flag G = 0 → nodeSim G nd (clearFlag flag nd).
Proof.
  intros H. repeat split. simpl. by rewrite land_clear_disjoint.
Qed.

Lemma nodeSim_setFlag G flag nd :
  Z.land flag G = 0 → nodeSim G nd (setFlag flag nd).
Proof.
  intros H. repeat split. simpl. by rewrite land_set_disjoint.
Qed.

Lemma sameShape_write_r G m a nd nd' :
  nodes m !! a = Some nd → nodeSim G nd nd' →
  sameShape G m (writeNode a nd' m).
Proof.
  intros Ha Hs. split; [|done]. intros b. simpl.
  destruct (decide (a = b)) as [->|?].
  - rewrite lookup_insert_eq, Ha. by constructor.
  - rewrite lookup_insert_ne by done.
    destruct (nodes m !! b); constructor. apply nodeSim_refl.
Qed.

Section ResetShape.

Variables IS_GAUSSIAN_VALID : Z.

(** On a closed store [resetFlagUpToRoot] returns; with a mask that has no
    bit of [IS_GAUSSIAN_VALID] it keeps the shape. *)
Lemma resetFlagUpToRoot_sameShape this flag m :
  Z.land flag IS_GAUSSIAN_VALID = 0 →
  closed (nodes m) → is_Some (nodes m !! this) →
  ∃ m', resetFlagUpToRoot IS_GAUSSIAN_VALID this flag m = Done m' ∧
    sameShape IS_GAUSSIAN_VALID m m'.
Proof.
  intros HG Hc [nd Hthis].
  destruct (resetFlagLoop_returns flag (size (nodes m)) (Some this) (nodes m))
    as (h' & Hrun & Hs).
  - done.
  - intros a [= <-]. eauto.
  - apply flagged_size.
  - unfold resetFlagUpToRoot. rewrite Hthis. simpl. rewrite Hrun. simpl.
    rewrite (proj2 (Z.eqb_eq _ _) HG).
    eexists. split; [done|]. split; [|done]. simpl. intros b.
    destruct (Hs b) as [->|(nb & -> & ->)].
    + destruct (nodes m !! b); constructor. apply nodeSim_refl.
    + constructor. by apply nodeSim_clearFlag.
Qed.

End ResetShape.

(** ** [tryIt] followed by [undoIt] *)

Section MoveRoundTrip.

Variables IS_FEATURE_PASSED_VALID IS_GAUSSIAN_VALID CAN_BE_MOVED : Z.
Variable joinLeaves : addr → addr → Memory → result Memory.

Hypothesis FPV_not_G : Z.land IS_FEATURE_PASSED_VALID IS_GAUSSIAN_VALID = 0.
Hypothesis CBM_not_G : Z.land CAN_BE_MOVED IS_GAUSSIAN_VALID = 0.

(** A trial move on a store of the same shape as [m0] returns, and ends in
    the shape that the relinking alone gives from [m0]. *)
Lemma trialMove_shape s a w m0 p g m0' mr m :
  detach s m0 = Done (p, g, m0') → attach s p a w m0' = Done mr →
  closed (nodes m0) → sameShape IS_GAUSSIAN_VALID m0 m →
  ∃ m', trialMove IS_FEATURE_PASSED_VALID IS_GAUSSIAN_VALID s a w m = Done m' ∧
    sameShape IS_GAUSSIAN_VALID mr m'.
Proof.
  intros Hdet Hatt Hc Hsh.
  destruct (resultRel_Done _ _ _ _ (sameShape_detach IS_GAUSSIAN_VALID m0 m s Hsh) Hdet)
    as ([[p' g'] m''] & Hdet2 & Epg & Hsh'). simpl in *.
  injection Epg as <- <-.
  destruct (resultRel_Done _ _ _ _ (sameShape_attach IS_GAUSSIAN_VALID m0' m'' s p a w Hsh')
              Hatt) as (mr' & Hatt2 & Hshr).
  destruct (detach_dom_closed _ _ _ _ _ Hdet) as (Hd1 & _ & Hc1).
  destruct (Hc1 Hc) as [Hc0' Hg].
  destruct (attach_dom_closed _ _ _ _ _ _ Hatt) as (Hd2 & Hp & Hc2).
  pose proof (Hc2 Hc0') as Hcr.
  pose proof (closed_sameShape _ _ _ Hshr Hcr) as Hcr'.
  assert (∀ b, is_Some (nodes m0 !! b) → is_Some (nodes mr' !! b)) as Hdom.
  { intros b Hb. eapply is_Some_sameShape; [done|].
    apply (is_Some_dom_eq (nodes m0')); [done|].
    by apply (is_Some_dom_eq (nodes m0)). }
  assert (is_Some (nodes mr' !! p)) as Hp'.
  { eapply is_Some_sameShape; [done|].
    by apply (is_Some_dom_eq (nodes m0')). }
  destruct (resetFlagUpToRoot_sameShape IS_GAUSSIAN_VALID p IS_FEATURE_PASSED_VALID mr'
              FPV_not_G Hcr' Hp') as (m3 & Hr3 & Hsh3).
  unfold trialMove. rewrite Hdet2. simpl. rewrite Hatt2. simpl.
  rewrite Hr3. simpl.
  destruct g as [ga|].
  - destruct (resetFlagUpToRoot_sameShape IS_GAUSSIAN_VALID ga IS_FEATURE_PASSED_VALID m3
                FPV_not_G) as (m4 & Hr4 & Hsh4).
    + by eapply closed_sameShape.
    + eapply is_Some_sameShape; [done|]. apply Hdom. by apply Hg.
    + exists m4. split; [done|].
      eapply sameShape_trans; [done|]. by eapply sameShape_trans.
  - exists m3. split; [done|]. by eapply sameShape_trans.
Qed.

(** C2. For a non-empty move without join of a subtree [s] that has a
    parent [p], to above a node [a] other than [s] and [p], in a well-formed
    tree: [tryIt] returns, [undoIt] right after it returns, and the store has
    the same shape as before [tryIt]: every node has the same parent and
    children, every treemap the same root, and every node the same
    [IS_GAUSSIAN_VALID] bits. *)
Theorem tryIt_undoIt_restores t m mv s a ns p na :
  wellFormed t m →
  subtree mv = Some s → above mv = Some a → join mv = false →
  nodes m !! s = Some ns → parent ns = Some p →
  nodes m !! a = Some na → a ≠ s → a ≠ p →
  ∃ mv1 m1 m2,
    tryIt IS_FEATURE_PASSED_VALID IS_GAUSSIAN_VALID CAN_BE_MOVED joinLeaves mv m
      = Done (mv1, m1) ∧
    undoIt IS_FEATURE_PASSED_VALID IS_GAUSSIAN_VALID CAN_BE_MOVED mv1 m1 = Done m2 ∧
    sameShape IS_GAUSSIAN_VALID m m2.
Proof.
  intros Hwf Hsub Habove Hjoin Hs Hps Ha Has Hap.
  destruct (relink_inverse _ _ _ _ _ _ _ Hwf Hs Hps Ha Has Hap)
    as (w & o & g & m' & mr & g' & m'' & Hsib & Hdet & Hatt & Hsib1 & Hdet1
        & Hback).
  pose proof (wellFormed_closed _ _ Hwf) as Hc.
  (* tryIt *)
  destruct (trialMove_shape s a w m p g m' mr m Hdet Hatt Hc
              (sameShape_refl _ _)) as (m3 & Htm & Hsh3).
  destruct (detach_dom_closed _ _ _ _ _ Hdet) as (Hd1 & _ & Hc1).
  destruct (Hc1 Hc) as [Hc' _].
  destruct (attach_dom_closed _ _ _ _ _ _ Hatt) as (Hd2 & _ & Hc2).
  pose proof (Hc2 Hc') as Hcr.
  assert (is_Some (nodes m3 !! s)) as [ns3 Hs3].
  { eapply is_Some_sameShape; [done|].
    apply (is_Some_dom_eq (nodes m')); [done|].
    apply (is_Some_dom_eq (nodes m)); [done|]. eauto. }
  set (mv1 := mkMove (Some s) w (Some o) (Some a) false).
  set (m1 := writeNode s (clearFlag CAN_BE_MOVED ns3) m3).
  assert (sameShape IS_GAUSSIAN_VALID mr m1) as Hsh1.
  { eapply sameShape_trans; [done|].
    apply (sameShape_write_r IS_GAUSSIAN_VALID m3 s ns3); [done|].
    by apply nodeSim_clearFlag. }
  exists mv1, m1.
  (* undoIt *)
  pose proof (sameShape_siblingOf IS_GAUSSIAN_VALID mr m1 s Hsh1) as Rsib.
  rewrite Hsib1 in Rsib.
  destruct (siblingOf s m1) as [[w1 a1]| |] eqn:Hsib2; simpl in Rsib;
    try done. simplify_eq.
  destruct (trialMove_shape s o w mr p g' m'' m m1 Hdet1 Hback Hcr Hsh1)
    as (m4 & Htm4 & Hsh4).
  assert (is_Some (nodes m4 !! s)) as [ns4 Hs4]
    by (eapply is_Some_sameShape; [done|]; eauto).
  exists (writeNode s (setFlag CAN_BE_MOVED ns4) m4).
  split; [|split].
  - unfold tryIt, setOldAbove. rewrite Hsub. simpl. rewrite Hsib. simpl.
    rewrite Habove, Hjoin. simpl. rewrite Htm. simpl.
    unfold readNode. rewrite Hs3. simpl. by subst mv1 m1.
  - unfold undoIt. subst mv1. simpl.
    rewrite Hsib2. simpl. rewrite bool_decide_eq_true_2 by done.
    rewrite Htm4. simpl. unfold readNode. by rewrite Hs4.
  - eapply sameShape_trans; [done|].
    apply (sameShape_write_r IS_GAUSSIAN_VALID m4 s ns4); [done|].
    by apply nodeSim_setFlag.
Qed.

End MoveRoundTrip.

(** ** The example tree *)

Ltac example_cases H :=
  unfold exampleMemory, exampleNodes in H; simpl in H;
  repeat
    match type of H with
    | <[?k := _]> _ !! ?a = Some _ =>
        destruct (decide (k = a)) as [<-|?];
        [rewrite lookup_insert_eq in H; injection H as <-
        |rewrite lookup_insert_ne in H by done]
    | ∅ !! _ = Some _ => by rewrite lookup_empty in H
    end.

Lemma exampleMemory_wellFormed s1 s2 s3 s4 s5 s6 s7 :
  wellFormed 0%nat (exampleMemory s1 s2 s3 s4 s5 s6 s7).
Proof.
  split.
  - intros a nd p Ha Hp. example_cases Ha; simpl in Hp; simplify_eq;
      eexists; (split; [reflexivity|]); simpl; auto.
  - intros a nd c Ha Hc. example_cases Ha; simpl in Hc;
      destruct Hc as [Hc|Hc]; simplify_eq;
      eexists; (split; [reflexivity|]); done.
  - intros a nd c Ha Hc. example_cases Ha; simpl in *; simplify_eq; done.
  - intros a nd Ha. example_cases Ha; simpl; done.
  - intros a [nd Ha]. example_cases Ha.
    + exists [1%nat]. econstructor 1; reflexivity.
    + exists [2; 1]%nat. econstructor 2; [reflexivity..|].
      econstructor 1; reflexivity.
    + exists [3; 1]%nat. econstructor 2; [reflexivity..|].
      econstructor 1; reflexivity.
    + exists [4; 2; 1]%nat. apply exampleNodes_ancestors_4.
    + exists [5; 2; 1]%nat. econstructor 2; [reflexivity..|].
      econstructor 2; [reflexivity..|]. econstructor 1; reflexivity.
    + exists [6; 3; 1]%nat. econstructor 2; [reflexivity..|].
      econstructor 2; [reflexivity..|]. econstructor 1; reflexivity.
    + exists [7; 3; 1]%nat. econstructor 2; [reflexivity..|].
      econstructor 2; [reflexivity..|]. econstructor 1; reflexivity.
  - intros a nd Ha. example_cases Ha; done.
  - exists exampleTreemap. split; [reflexivity|].
    intros a nd Ha Hp. example_cases Ha; simpl in Hp; simplify_eq; done.
Qed.

(** Leaf [4] is moved to above leaf [6] and back, with
    [IS_FEATURE_PASSED_VALID = 1], [IS_GAUSSIAN_VALID = 2] and
    [CAN_BE_MOVED = 4]. *)
Lemma tryIt_undoIt_restores_witness :
  ∃ mv1 m1 m2,
    tryIt 1 2 4 (λ _ _ _, Fault) (mkMove (Some 4%nat) (-1) None (Some 6%nat) false)
      (exampleMemory 7 7 7 7 7 7 7) = Done (mv1, m1) ∧
    undoIt 1 2 4 mv1 m1 = Done m2 ∧
    sameShape 2 (exampleMemory 7 7 7 7 7 7 7) m2.
Proof.
  apply (tryIt_undoIt_restores 1 2 4 (λ _ _ _, Fault) eq_refl eq_refl 0%nat
           (exampleMemory 7 7 7 7 7 7 7)
           (mkMove (Some 4%nat) (-1) None (Some 6%nat) false)
           4%nat 6%nat
           (exampleNode 3 7 (Some 2%nat) None None) 2%nat
           (exampleNode 5 7 (Some 3%nat) None None)).
  - apply exampleMemory_wellFormed.
  - reflexivity.
  - reflexivity.
  - reflexivity.
  - reflexivity.
  - reflexivity.
  - reflexivity.
  - lia.
  - lia.
Defined.

(** ** The invalidation invariant and [resetFlagUpToRoot] *)





(** Chains depend on the [parent] fields only. *)
Lemma ancestors_same_parents (h h' : gmap addr TmNode) a l :
  (∀ b, parent <$> h' !! b = parent <$> h !! b) →
  ancestors h a l → ancestors h' a l.
Proof.
  intros Hp. induction 1 as [a nd Ha Hpa | a nd p l Ha Hpa Hl IH].
  - pose proof (Hp a) as E. rewrite Ha in E.
    destruct (h' !! a) as [nd'|] eqn:Ha'; simplify_eq/=.
    econstructor 1; [done|congruence].
  - pose proof (Hp a) as E. rewrite Ha in E.
    destruct (h' !! a) as [nd'|] eqn:Ha'; simplify_eq/=.
    apply (ancestors_up h' a nd' p l); [done|congruence|done].
Qed.

Section Invariant.

Variables IS_FEATURE_PASSED_VALID IS_GAUSSIAN_VALID : Z.



End Invariant.


Ltac example_chain Hanc l :=
  match type of Hanc with
  | ancestors ?h ?a ?l' =>
      let H := fresh in
      assert (ancestors h a l) as H
        by (repeat (first [ by (econstructor 1; reflexivity)
                          | econstructor 2; [reflexivity|reflexivity|] ]));
      pose proof (ancestors_functional _ _ _ _ Hanc H); subst l'; clear H
  end.

Ltac example_members Hb :=
  repeat (apply elem_of_cons in Hb as [->|Hb]);
  [..|by apply elem_of_nil in Hb].

(** In the example tree with [IS_GAUSSIAN_VALID = 2] false on leaf [4], its
    parent [2] and the root [1], the invariant holds for both flags. *)
Lemma example_ancestorsInvalid :
  ancestorsInvalid 1 0%nat (exampleMemory 5 5 7 5 7 7 7) ∧
  ancestorsInvalid 2 0%nat (exampleMemory 5 5 7 5 7 7 7).
Proof.
  split.
  - intros a l [Hanc _] (na & Ha & Hf) b Hb.
    example_cases Ha; vm_compute in Hf; discriminate.
  - intros a l [Hanc _] (na & Ha & Hf) b Hb.
    example_cases Ha; vm_compute in Hf; try discriminate.
    + example_chain Hanc [1%nat]. example_members Hb;
        (eexists; split; reflexivity).
    + example_chain Hanc [2; 1]%nat. example_members Hb;
        (eexists; split; reflexivity).
    + example_chain Hanc [4; 2; 1]%nat. example_members Hb;
        (eexists; split; reflexivity).
Qed.

(** The state inside a speculative move, on the spec-modelled [tryIt].
    [IS_FEATURE_PASSED_VALID = 1], [IS_GAUSSIAN_VALID = 2],
    [CAN_BE_MOVED = 4].  Before the move the invariant holds for both
    flags.  [tryIt] moves leaf [4] with its parent [2] to above leaf [6] and
    leaves [IS_GAUSSIAN_VALID] as it was: until the move is undone or made
    permanent, node [2] has the flag false below its new parent [3], which
    has it true.  A run of the optimizer passes through this state; the
    header marks it with [isGaussianValidValid = false]. *)
Lemma tryIt_breaks_gaussian_invariant :
  ancestorsInvalid 1 0%nat (exampleMemory 5 5 7 5 7 7 7) ∧
  ancestorsInvalid 2 0%nat (exampleMemory 5 5 7 5 7 7 7) ∧
  ∃ mv1 m1,
    tryIt 1 2 4 (λ _ _ _, Fault)
      (mkMove (Some 4%nat) (-1) None (Some 6%nat) false)
      (exampleMemory 5 5 7 5 7 7 7) = Done (mv1, m1) ∧
    live m1 0%nat 2%nat [2; 3; 1]%nat ∧
    flagClear 2 m1 2%nat ∧ ¬ flagClear 2 m1 3%nat ∧
    ¬ ancestorsInvalid 2 0%nat m1.
Proof.
  split; [apply example_ancestorsInvalid|].
  split; [apply example_ancestorsInvalid|].
  eexists _, _. split; [vm_compute; reflexivity|].
  match goal with |- live ?m _ _ _ ∧ _ => set (m1 := m) end.
  assert (live m1 0%nat 2%nat [2; 3; 1]%nat) as Hlive.
  2: assert (flagClear 2 m1 2%nat) as Hclear.
  3: assert (¬ flagClear 2 m1 3%nat) as Hset.
  4: { split; [exact Hlive|]. split; [exact Hclear|]. split; [exact Hset|].
       intros Hinv. apply Hset.
       apply (Hinv 2%nat [2; 3; 1]%nat Hlive Hclear). right. left. }
  - split.
    + econstructor 2; [reflexivity|reflexivity|].
      econstructor 2; [reflexivity|reflexivity|].
      econstructor 1; reflexivity.
    + eexists. split; reflexivity.
  - eexists. split; reflexivity.
  - intros (nb & Hnb & Hf). vm_compute in Hnb. injection Hnb as <-.
    vm_compute in Hf. discriminate.
Qed.


(** ** [effectOfJoining] *)

Section JoiningFacts.

Variable CAN_BE_INTEGRATED : Z.
Variable threeWaySplit : Memory → addr → list Z → list Z * Z * Z * Z.

(** The walk returns on every subtree of a well-formed tree, and its result
    is [None] exactly when a leaf below is not marked. *)
Lemma collectFeatures_spec t m : wellFormed t m → ∀ fuel n l,
  ancestors (nodes m) n l → (size (nodes m) < length l + fuel)%nat →
  ∃ r, collectFeatures CAN_BE_INTEGRATED fuel (nodes m) n = Done r ∧
    (r = None ↔
     ∃ x nx, leafBelow (nodes m) n x ∧ nodes m !! x = Some nx ∧
       isFlag CAN_BE_INTEGRATED nx = false).
Proof.
  intros Hwf. induction fuel as [|fuel IH]; intros n l Hanc Hfuel.
  { pose proof (ancestors_length _ _ _ Hanc). lia. }
  assert (n ∈ l) as Hnl by (apply ancestors_head in Hanc as [? ->]; left).
  destruct (ancestors_in_dom _ _ _ n Hanc Hnl) as [nd Hn].
  simpl. rewrite Hn. simpl.
  destruct (child0 nd) as [c0|] eqn:E0; destruct (child1 nd) as [c1|] eqn:E1.
  - destruct (wf_child _ _ Hwf n nd c0 Hn (or_introl E0)) as (n0 & Hn0 & Hp0).
    destruct (wf_child _ _ Hwf n nd c1 Hn (or_intror E1)) as (n1 & Hn1 & Hp1).
    destruct (IH c0 (c0 :: l)) as (r0 & Hr0 & Hi0);
      [by econstructor 2|simpl; lia|].
    destruct (IH c1 (c1 :: l)) as (r1 & Hr1 & Hi1);
      [by econstructor 2|simpl; lia|].
    rewrite Hr0. simpl. rewrite Hr1. simpl.
    eexists. split; [done|]. split.
    + intros Hnone.
      destruct r0 as [f0|].
      * destruct r1 as [f1|]; [done|].
        destruct (proj1 Hi1 eq_refl) as (x & nx & Hb & Hx & Hf).
        exists x, nx. split; [|done].
        eapply leafBelow_child; [done|by right|done].
      * destruct (proj1 Hi0 eq_refl) as (x & nx & Hb & Hx & Hf).
        exists x, nx. split; [|done].
        eapply leafBelow_child; [done|by left|done].
    + intros (x & nx & Hb & Hx & Hf).
      inversion Hb as [? ? Hn' Hc0 Hc1|? ? c ? Hn' Hc Hb']; simplify_eq.
      destruct Hc as [Hc|Hc]; simplify_eq.
      * rewrite (proj2 Hi0); [done|eauto].
      * rewrite (proj2 Hi1); [|eauto]. by destruct r0.
  - apply (wf_binary _ _ Hwf n nd Hn) in E1. congruence.
  - apply (wf_binary _ _ Hwf n nd Hn) in E0. congruence.
  - eexists. split; [done|]. split.
    + destruct (isFlag CAN_BE_INTEGRATED nd) eqn:Ef; [done|]. intros _.
      exists n, nd. split; [|done]. by econstructor 1.
    + intros (x & nx & Hb & Hx & Hf).
      inversion Hb as [? ? Hn' Hc0 Hc1|? ? c ? Hn' Hc Hb']; simplify_eq.
      * by rewrite Hf.
      * destruct Hc; congruence.
Qed.

(** C5. In a well-formed tree, when some leaf below [subtree] is not marked
    [CAN_BE_INTEGRATED], [effectOfJoining] returns the empty feature list
    and [nPM = nM = nP = -1], whatever the other leaves hold. *)
Theorem effectOfJoining_not_integrable t m subtree x nx :
  wellFormed t m →
  leafBelow (nodes m) subtree x → nodes m !! x = Some nx →
  isFlag CAN_BE_INTEGRATED nx = false →
  effectOfJoining CAN_BE_INTEGRATED threeWaySplit subtree m
    = Done ([], -1, -1, -1).
Proof.
  intros Hwf Hb Hx Hf.
  assert (is_Some (nodes m !! subtree)) as Hs by (inversion Hb; eauto).
  destruct (wf_acyclic _ _ Hwf subtree Hs) as [l Hl].
  destruct (collectFeatures_spec t m Hwf (size (nodes m)) subtree l Hl)
    as (r & Hr & Hiff).
  { apply ancestors_head in Hl as [? ->]. simpl. lia. }
  unfold effectOfJoining. rewrite Hr. simpl.
  rewrite (proj2 Hiff); [done|]. eauto.
Qed.

(** When every leaf below is marked, the result is the grouping of the
    collected features and not the failure value put in by the walk. *)
Lemma effectOfJoining_integrable t m subtree :
  wellFormed t m → is_Some (nodes m !! subtree) →
  (∀ x nx, leafBelow (nodes m) subtree x → nodes m !! x = Some nx →
     isFlag CAN_BE_INTEGRATED nx = true) →
  ∃ fl, effectOfJoining CAN_BE_INTEGRATED threeWaySplit subtree m
          = Done (threeWaySplit m subtree fl).
Proof.
  intros Hwf Hs Hall.
  destruct (wf_acyclic _ _ Hwf subtree Hs) as [l Hl].
  destruct (collectFeatures_spec t m Hwf (size (nodes m)) subtree l Hl)
    as (r & Hr & Hiff).
  { apply ancestors_head in Hl as [? ->]. simpl. lia. }
  unfold effectOfJoining. rewrite Hr. simpl.
  destruct r as [fl|]; [eauto|].
  destruct (proj1 Hiff eq_refl) as (x & nx & Hb & Hx & Hf).
  rewrite (Hall x nx Hb Hx) in Hf. done.
Qed.

End JoiningFacts.

(** With [CAN_BE_INTEGRATED = 8]: below node [2], leaf [4] is marked and
    leaf [5] is not. *)
Lemma effectOfJoining_not_integrable_witness :
  effectOfJoining 8 (λ _ _ fl, (fl, 0, 0, Z.of_nat (length fl))) 2%nat
    (exampleMemory 15 15 15 15 7 15 15) = Done ([], -1, -1, -1).
Proof.
  apply (effectOfJoining_not_integrable 8
           (λ _ _ fl, (fl, 0, 0, Z.of_nat (length fl))) 0%nat
           (exampleMemory 15 15 15 15 7 15 15) 2%nat 5%nat
           (exampleNode 4 7 (Some 2%nat) None None)).
  - apply exampleMemory_wellFormed.
  - eapply leafBelow_child; [reflexivity|by right|].
    eapply leafBelow_leaf; reflexivity.
  - reflexivity.
  - reflexivity.
Defined.

(** * Further properties of the code of [tmTreemap.h] *)

(** ** [resetFlagUpToRoot] on any store *)

(** A run of the loop that returns has only cleared the flag on some
    nodes, whatever the shape of the store. *)
Lemma resetFlagLoop_statusChange flag fuel : ∀ n h h',
  resetFlagLoop fuel flag n h = Done h' → statusChange flag h h'.
Proof.
  induction fuel as [|fuel IH]; intros n h h';
    rewrite resetFlagLoop_unfold; destruct n as [a|];
    try (intros [= <-]; apply statusChange_refl);
    destruct (h !! a) as [nd|] eqn:Ha; simpl; try done;
    destruct (isFlag flag nd) eqn:Hf;
    try (intros [= <-]; apply statusChange_refl); try done.
  intros Hrun. eapply statusChange_step; [done..|]. by eapply IH.
Qed.

(** After a run that returns, the flag is clear on the starting node. *)
Lemma resetFlagLoop_start_clear flag fuel a h h' :
  resetFlagLoop fuel flag (Some a) h = Done h' →
  ∃ nd', h' !! a = Some nd' ∧ isFlag flag nd' = false.
Proof.
  rewrite resetFlagLoop_unfold.
  destruct (h !! a) as [nd|] eqn:Ha; simpl; [|done].
  destruct (isFlag flag nd) eqn:Hf; [|intros [= <-]; eauto].
  destruct fuel as [|fuel]; [done|]. intros Hrun.
  apply resetFlagLoop_statusChange in Hrun.
  destruct (Hrun a) as [E|(nb & E1 & E2)].
  - rewrite lookup_insert_eq in E. eexists. split; [done|].
    apply isFlag_clearFlag.
  - eexists. split; [done|]. apply isFlag_clearFlag.
Qed.

Lemma statusChange_onlyFlagCleared flag h h' b :
  statusChange flag h h' →
  option_Forall2 (onlyFlagCleared flag) (h !! b) (h' !! b).
Proof.
  intros Hs. destruct (Hs b) as [->|(nb & -> & ->)].
  - destruct (h !! b); constructor. repeat split. by left.
  - constructor. repeat split. by right.
Qed.

Section ResetFrame.

Variable IS_GAUSSIAN_VALID : Z.

(** X1. Whatever the store and the mask, a call of [resetFlagUpToRoot] that
    returns has changed no link: every node keeps its [index], [parent],
    children, [tree] and features, and its [status] is the old one or the
    old one without the bits of the mask; no node appears or disappears;
    every treemap keeps its root, and only [isEstimateValid] can change, to
    [false]. *)
Theorem resetFlagUpToRoot_only_clears_flag this flag m m' :
  resetFlagUpToRoot IS_GAUSSIAN_VALID this flag m = Done m' →
  (∀ b, option_Forall2 (onlyFlagCleared flag)
          (nodes m !! b) (nodes m' !! b)) ∧
  (∀ t, option_Forall2 onlyEstimateStale
          (treemaps m !! t) (treemaps m' !! t)).
Proof.
  unfold resetFlagUpToRoot.
  destruct (nodes m !! this) as [self|]; simpl; [|done].
  destruct (resetFlagLoop _ _ _ _) as [h'| |] eqn:Hrun; simpl; try done.
  apply resetFlagLoop_statusChange in Hrun.
  assert (∀ t, option_Forall2 onlyEstimateStale
                 (treemaps m !! t) (treemaps m !! t)) as Hrefl.
  { intros t. destruct (treemaps m !! t); constructor.
    repeat split. by left. }
  destruct (Z.land flag IS_GAUSSIAN_VALID =? 0).
  - intros [= <-]. simpl. split; [|done].
    intros b. by apply statusChange_onlyFlagCleared.
  - destruct (tree self) as [t0|]; simpl; [|done].
    destruct (treemaps m !! t0) as [tm0|] eqn:Ht0; simpl; [|done].
    intros [= <-]. simpl. split.
    + intros b. by apply statusChange_onlyFlagCleared.
    + intros t. destruct (decide (t0 = t)) as [<-|?].
      * rewrite lookup_insert_eq, Ht0. constructor. repeat split. by right.
      * rewrite lookup_insert_ne by done. apply Hrefl.
Qed.

(** X2. [resetFlagUpToRoot] is idempotent: a second call with the same
    node and mask returns the store that the first call left. *)
Theorem resetFlagUpToRoot_idempotent this flag m m' :
  resetFlagUpToRoot IS_GAUSSIAN_VALID this flag m = Done m' →
  resetFlagUpToRoot IS_GAUSSIAN_VALID this flag m' = Done m'.
Proof.
  unfold resetFlagUpToRoot.
  destruct (nodes m !! this) as [self|] eqn:Hthis; simpl; [|done].
  destruct (resetFlagLoop _ _ _ _) as [h'| |] eqn:Hrun; simpl; try done.
  destruct (resetFlagLoop_start_clear _ _ _ _ _ Hrun) as (nd' & Hnd' & Hf').
  pose proof (resetFlagLoop_statusChange _ _ _ _ _ Hrun) as Hs.
  assert (tree nd' = tree self) as Htree.
  { destruct (Hs this) as [E|(nb & E1 & E2)].
    - rewrite Hnd', Hthis in E. by simplify_eq.
    - rewrite Hthis in E1. rewrite Hnd' in E2. by simplify_eq. }
  assert (resetFlagLoop (size h') flag (Some this) h' = Done h') as Hagain.
  { rewrite resetFlagLoop_unfold, Hnd'. simpl. by rewrite Hf'. }
  destruct (Z.land flag IS_GAUSSIAN_VALID =? 0) eqn:EG.
  - intros [= <-]. simpl. rewrite Hnd'. simpl.
    by rewrite Hagain.
  - destruct (tree self) as [t0|] eqn:Ht; simpl; [|done].
    destruct (treemaps m !! t0) as [tm0|] eqn:Ht0; simpl; [|done].
    intros [= <-]. simpl. rewrite Hnd'. simpl.
    rewrite Hagain. simpl. rewrite Htree. simpl.
    rewrite lookup_insert_eq. simpl. by rewrite insert_insert_eq.
Qed.

End ResetFrame.

(** ** Invalidation and the validity tests of the treemap *)

Section Validity.

Variables IS_FEATURE_PASSED_VALID IS_GAUSSIAN_VALID : Z.

(** From a live node, in a tree that satisfies the invariant for the mask,
    the call leaves the mask clear on the whole chain up to the root; the
    treemaps keep their roots. *)
Lemma resetFlagUpToRoot_chain_clear m this flag l t t0 tm0 :
  live m t this l → owner m this t0 tm0 → ancestorsInvalid flag t m →
  ∃ m', resetFlagUpToRoot IS_GAUSSIAN_VALID this flag m = Done m' ∧
    (∀ b, b ∈ l → flagClear flag m' b) ∧
    treemaps m' =
      (if Z.land flag IS_GAUSSIAN_VALID =? 0 then treemaps m
       else <[t0 := setIsEstimateValid false tm0]> (treemaps m)).
Proof.
  intros [Hanc Hroot] Hown Hinv.
  destruct (resetFlagUpToRoot_effect IS_GAUSSIAN_VALID m this flag l t0 tm0
              Hanc Hown) as (m' & Hrun & Hin & Hout & Htms).
  destruct (flaggedPrefix_split flag _ _ _ Hanc) as (rest & El & _ & Hrest).
  exists m'. split; [done|]. split; [|done].
  intros b Hb.
  destruct (ancestors_in_dom _ _ _ b Hanc Hb) as [nb Hnb].
  destruct (decide (b ∈ flaggedPrefix flag (nodes m) l)) as [Hpre|Hpre].
  - exists (clearFlag flag nb). split; [by rewrite Hin, Hnb|].
    apply isFlag_clearFlag.
  - rewrite El in Hb. apply elem_of_app in Hb as [Hb|Hb]; [done|].
    destruct rest as [|r0 rest']; [by apply elem_of_nil in Hb|].
    destruct (ancestors_in_dom _ _ _ r0 Hanc) as [n0 Hn0].
    { rewrite El. apply elem_of_app. right. left. }
    assert (live m t r0 (r0 :: rest')) as Hlive0.
    { split; [by eapply ancestors_suffix|].
      rewrite El, last_app_cons in Hroot. done. }
    destruct (Hinv r0 (r0 :: rest') Hlive0) with (b := b)
      as (nb' & Hnb' & Hfb); [|done|].
    { exists n0. split; [done|]. by apply (Hrest r0 n0). }
    exists nb'. split; [by rewrite Hout|done].
Qed.

(** X3. When the invariant holds for the mask and the call starts at a live
    node, the early exit of the loop loses nothing: after the call the mask
    is clear on the starting node and on every ancestor up to the root. *)
Theorem resetFlagUpToRoot_invalidates_up_to_root m this flag l t t0 tm0 :
  live m t this l → owner m this t0 tm0 → ancestorsInvalid flag t m →
  ∃ m', resetFlagUpToRoot IS_GAUSSIAN_VALID this flag m = Done m' ∧
    ∀ b, b ∈ l → ∃ nb, nodes m' !! b = Some nb ∧ isFlag flag nb = false.
Proof.
  intros Hlive Hown Hinv.
  destruct (resetFlagUpToRoot_chain_clear m this flag l t t0 tm0
              Hlive Hown Hinv) as (m' & Hrun & Hclear & _).
  exists m'. split; [done|]. intros b Hb. by apply Hclear.
Qed.

Lemma live_root_in_chain m t a l :
  live m t a l → ∃ tm r, treemaps m !! t = Some tm ∧ root tm = Some r ∧ r ∈ l.
Proof.
  intros [Hanc (tm & Htm & Hroot)].
  apply ancestors_head in Hanc as [l' ->].
  destruct (last (a :: l')) as [r|] eqn:El.
  - exists tm, r. split; [done|]. split; [done|].
    by apply last_Some_elem_of.
  - rewrite last_cons in El. by destruct (last l').
Qed.

(** X4. After [resetFlagUpToRoot (IS_FEATURE_PASSED_VALID)] from a live node
    of the tree of treemap [t], in a tree that satisfies the invariant,
    [isFeaturePassedValid ()] of that treemap is [false]. *)
Theorem isFeaturePassedValid_false_after_reset m this l t t0 tm0 :
  live m t this l → owner m this t0 tm0 →
  ancestorsInvalid IS_FEATURE_PASSED_VALID t m →
  ∃ m',
    resetFlagUpToRoot IS_GAUSSIAN_VALID this IS_FEATURE_PASSED_VALID m
      = Done m' ∧
    isFeaturePassedValid IS_FEATURE_PASSED_VALID t m' = Done false.
Proof.
  intros Hlive Hown Hinv.
  destruct (resetFlagUpToRoot_chain_clear m this IS_FEATURE_PASSED_VALID l t
              t0 tm0 Hlive Hown Hinv) as (m' & Hrun & Hclear & Htms).
  destruct (live_root_in_chain _ _ _ _ Hlive) as (tm & r & Htm & Hr & Hrl).
  destruct (Hclear r Hrl) as (nr & Hnr & Hfr).
  exists m'. split; [done|].
  assert (∃ tm', treemaps m' !! t = Some tm' ∧ root tm' = Some r)
    as (tm' & Htm' & Hr').
  { rewrite Htms. destruct (_ =? 0); [eauto|].
    destruct (decide (t0 = t)) as [->|?].
    - rewrite lookup_insert_eq. destruct Hown as (? & ? & ? & ?).
      eexists. split; [done|]. simpl. congruence.
    - rewrite lookup_insert_ne by done. eauto. }
  unfold isFeaturePassedValid, readNode. rewrite Htm'. simpl.
  rewrite Hr', Hnr. simpl. by rewrite Hfr.
Qed.

(** X5. After [resetFlagUpToRoot (IS_GAUSSIAN_VALID)] from a live node of
    the tree of its own treemap, in a tree that satisfies the invariant,
    [isGaussianValid ()] is [false] and so is [isEstimateValid]. *)
Theorem isGaussianValid_false_after_reset m this l t tm0 :
  IS_GAUSSIAN_VALID ≠ 0 →
  live m t this l → owner m this t tm0 →
  ancestorsInvalid IS_GAUSSIAN_VALID t m →
  ∃ m' tm',
    resetFlagUpToRoot IS_GAUSSIAN_VALID this IS_GAUSSIAN_VALID m = Done m' ∧
    isGaussianValid IS_GAUSSIAN_VALID t m' = Done false ∧
    treemaps m' !! t = Some tm' ∧ isEstimateValid tm' = false.
Proof.
  intros HG Hlive Hown Hinv.
  destruct (resetFlagUpToRoot_chain_clear m this IS_GAUSSIAN_VALID l t
              t tm0 Hlive Hown Hinv) as (m' & Hrun & Hclear & Htms).
  destruct (live_root_in_chain _ _ _ _ Hlive) as (tm & r & Htm & Hr & Hrl).
  destruct (Hclear r Hrl) as (nr & Hnr & Hfr).
  rewrite Z.land_diag in Htms.
  rewrite (proj2 (Z.eqb_neq _ _) HG) in Htms.
  destruct Hown as (n0 & Hn0 & Ht0 & Htm0).
  assert (tm = tm0) as -> by congruence.
  exists m', (setIsEstimateValid false tm0). split; [done|].
  assert (treemaps m' !! t = Some (setIsEstimateValid false tm0)) as Htm'
    by (by rewrite Htms, lookup_insert_eq).
  split; [|done].
  unfold isGaussianValid, readNode. rewrite Htm'. simpl.
  destruct (isGaussianValidValid tm0); [|done].
  rewrite Hr, Hnr. simpl. by rewrite Hfr.
Qed.

(** X6. Reading the root is enough: in a tree that satisfies the invariant,
    when [isFeaturePassedValid ()] is [true] the flag is set on every live
    node. *)
Theorem isFeaturePassedValid_true_all_live m t :
  ancestorsInvalid IS_FEATURE_PASSED_VALID t m →
  isFeaturePassedValid IS_FEATURE_PASSED_VALID t m = Done true →
  ∀ a l na, live m t a l → nodes m !! a = Some na →
    isFlag IS_FEATURE_PASSED_VALID na = true.
Proof.
  intros Hinv Hvalid a l na Hlive Ha.
  destruct (isFlag IS_FEATURE_PASSED_VALID na) eqn:Hf; [done|].
  destruct (live_root_in_chain _ _ _ _ Hlive) as (tm & r & Htm & Hr & Hrl).
  destruct (Hinv a l Hlive (ex_intro _ na (conj Ha Hf)) r Hrl)
    as (nr & Hnr & Hfr).
  unfold isFeaturePassedValid, readNode in Hvalid.
  rewrite Htm in Hvalid. simpl in Hvalid. rewrite Hr, Hnr in Hvalid.
  simpl in Hvalid. congruence.
Qed.

(** X7. In a tree that satisfies the invariant, when [isGaussianValid ()]
    is [true] then [isGaussianValidValid] is [true] and
    [IS_GAUSSIAN_VALID] is set on every live node. *)
Theorem isGaussianValid_true_all_live m t :
  ancestorsInvalid IS_GAUSSIAN_VALID t m →
  isGaussianValid IS_GAUSSIAN_VALID t m = Done true →
  (∃ tm, treemaps m !! t = Some tm ∧ isGaussianValidValid tm = true) ∧
  ∀ a l na, live m t a l → nodes m !! a = Some na →
    isFlag IS_GAUSSIAN_VALID na = true.
Proof.
  intros Hinv Hvalid. unfold isGaussianValid, readNode in Hvalid.
  destruct (treemaps m !! t) as [tm|] eqn:Htm; simpl in Hvalid; [|done].
  destruct (isGaussianValidValid tm) eqn:Hvv; [|done].
  split; [eauto|].
  intros a l na Hlive Ha.
  destruct (isFlag IS_GAUSSIAN_VALID na) eqn:Hf; [done|].
  destruct (live_root_in_chain _ _ _ _ Hlive) as (tm' & r & Htm' & Hr & Hrl).
  destruct (Hinv a l Hlive (ex_intro _ na (conj Ha Hf)) r Hrl)
    as (nr & Hnr & Hfr).
  simplify_eq. rewrite Hr, Hnr in Hvalid. simpl in Hvalid. congruence.
Qed.

End Validity.

(** ** [getNode] *)

(** X8. A result of [getNode] that is not [NULL] comes from the vector: the
    index is inside [0, node.size()) and the slot holds that node.  This
    needs no bound on the size of the vector. *)
Theorem getNode_not_null_in_range tm i a :
  getNode tm i = Done (Some a) →
  0 <= i < Z.of_nat (length (node tm)) ∧
  node tm !! Z.to_nat i = Some (Some a).
Proof.
  unfold getNode.
  destruct (0 <=? i) eqn:E0; simpl; [|done].
  destruct (i <? _) eqn:E1; [|done].
  apply Z.leb_le in E0. apply Z.ltb_lt in E1.
  pose proof (toInt_le (Z.of_nat (length (node tm))) ltac:(lia)).
  destruct (node tm !! Z.to_nat i) as [slot|] eqn:Hs; simpl; [|done].
  intros [= ->]. split; [lia|done].
Qed.

(** ** Two invalidations in either order *)

Lemma clearFlag_clearFlag flag nd :
  clearFlag flag (clearFlag flag nd) = clearFlag flag nd.
Proof.
  unfold clearFlag, setStatus. simpl. f_equal.
  rewrite <- Z.land_assoc. by rewrite Z.land_diag.
Qed.

(** The nodes that the loop clears are those that [flagReach] describes. *)
Lemma flaggedPrefix_flagReach flag h a l c :
  ancestors h a l → c ∈ flaggedPrefix flag h l ↔ flagReach flag h a c.
Proof.
  induction 1 as [a nd Ha Hp | a nd p l Ha Hp Hl IH]; simpl; rewrite Ha.
  - destruct (isFlag flag nd) eqn:Hf; split.
    + intros ->%list_elem_of_singleton. by econstructor 1.
    + intros Hr. inversion Hr; simplify_eq. left.
    + by intros ?%elem_of_nil.
    + intros Hr. inversion Hr; simplify_eq; congruence.
  - destruct (isFlag flag nd) eqn:Hf; split.
    + intros [->|Hc]%elem_of_cons; [by econstructor 1|].
      econstructor 2; [done..|]. by apply IH.
    + intros Hr. inversion Hr; simplify_eq; [left|].
      right. by apply IH.
    + by intros ?%elem_of_nil.
    + intros Hr. inversion Hr; simplify_eq; congruence.
Qed.

Lemma flagReach_trans flag h a b c :
  flagReach flag h a b → flagReach flag h b c → flagReach flag h a c.
Proof.
  induction 1 as [a nd Ha Hf | a nd p b Ha Hf Hp Hr IH]; [done|].
  intros Hbc. econstructor 2; [done..|]. by apply IH.
Qed.

(** After the flag was cleared on what a walk from [a] reaches, a walk from
    [b] reaches what it reached before, less what the first walk took. *)
Lemma flagReach_after flag (h h1 : gmap addr TmNode) a :
  (∀ c, flagReach flag h a c ∨ ¬ flagReach flag h a c) →
  (∀ c, flagReach flag h a c → h1 !! c = clearFlag flag <$> h !! c) →
  (∀ c, ¬ flagReach flag h a c → h1 !! c = h !! c) →
  ∀ b c, flagReach flag h a c ∨ flagReach flag h1 b c ↔
         flagReach flag h a c ∨ flagReach flag h b c.
Proof.
  intros Hdec Hin Hout b c.
  assert (∀ x nd1, h1 !! x = Some nd1 → isFlag flag nd1 = true →
            h !! x = Some nd1) as Hkeep.
  { intros x nd1 Hx Hf. destruct (Hdec x) as [Hr|Hr].
    - rewrite (Hin x Hr) in Hx. destruct (h !! x) as [nd|]; simplify_eq/=.
      by rewrite isFlag_clearFlag in Hf.
    - by rewrite (Hout x Hr) in Hx. }
  split; (intros [Hr|Hr]; [by left|]).
  - right. induction Hr as [x nd Hx Hf | x nd p c Hx Hf Hp Hr IH].
    + econstructor 1; [by apply Hkeep|done].
    + econstructor 2; [by apply Hkeep|done..].
  - induction Hr as [x nd Hx Hf | x nd p c Hx Hf Hp Hr IH].
    + destruct (Hdec x) as [Hax|Hax]; [by left|]. right.
      econstructor 1; [by rewrite (Hout x Hax)|done].
    + destruct IH as [Hac|H1]; [by left|].
      destruct (Hdec x) as [Hax|Hax].
      * left. eapply flagReach_trans; [done|]. by econstructor 2.
      * right. econstructor 2; [by rewrite (Hout x Hax)|done..].
Qed.

Section ResetCommute.

Variable IS_GAUSSIAN_VALID : Z.

(** Two calls, first from [a], then from [b]: the flag is cleared on what
    either walk reaches in the first store, and nothing else changes. *)
Lemma resetFlagUpToRoot_twice m flag a la ta tma b lb tb tmb :
  ancestors (nodes m) a la → ancestors (nodes m) b lb →
  owner m a ta tma → owner m b tb tmb →
  ∃ m1 m2,
    resetFlagUpToRoot IS_GAUSSIAN_VALID a flag m = Done m1 ∧
    resetFlagUpToRoot IS_GAUSSIAN_VALID b flag m1 = Done m2 ∧
    (∀ c, flagReach flag (nodes m) a c ∨ flagReach flag (nodes m) b c →
       nodes m2 !! c = clearFlag flag <$> nodes m !! c) ∧
    (∀ c, ¬ (flagReach flag (nodes m) a c ∨ flagReach flag (nodes m) b c) →
       nodes m2 !! c = nodes m !! c) ∧
    treemaps m2 =
      (if Z.land flag IS_GAUSSIAN_VALID =? 0 then treemaps m
       else <[tb := setIsEstimateValid false tmb]>
              (<[ta := setIsEstimateValid false tma]> (treemaps m))).
Proof.
  intros Hla Hlb Howna Hownb.
  destruct (resetFlagUpToRoot_effect IS_GAUSSIAN_VALID m a flag la ta tma
              Hla Howna) as (m1 & Hrun1 & Hin1 & Hout1 & Htms1).
  assert (∀ c, flagReach flag (nodes m) a c ∨ ¬ flagReach flag (nodes m) a c)
    as Hdec.
  { intros c. destruct (decide (c ∈ flaggedPrefix flag (nodes m) la)) as [H|H].
    - left. by apply (flaggedPrefix_flagReach flag _ a la).
    - right. intros Hr. apply H.
      by apply (flaggedPrefix_flagReach flag _ a la). }
  assert (∀ c, flagReach flag (nodes m) a c →
            nodes m1 !! c = clearFlag flag <$> nodes m !! c) as Hin1'.
  { intros c Hr. apply Hin1. by apply (flaggedPrefix_flagReach flag _ a la). }
  assert (∀ c, ¬ flagReach flag (nodes m) a c →
            nodes m1 !! c = nodes m !! c) as Hout1'.
  { intros c Hr. apply Hout1. intros H. apply Hr.
    by apply (flaggedPrefix_flagReach flag _ a la). }
  assert (∀ c, parent <$> nodes m1 !! c = parent <$> nodes m !! c) as Hpar.
  { intros c. destruct (Hdec c) as [Hr|Hr].
    - rewrite (Hin1' c Hr). by destruct (nodes m !! c).
    - by rewrite (Hout1' c Hr). }
  assert (ancestors (nodes m1) b lb) as Hlb1
    by (by eapply ancestors_same_parents).
  destruct Hownb as (nb & Hb & Htb & Htmb).
  assert (∃ tmb1, owner m1 b tb tmb1 ∧
            ((Z.land flag IS_GAUSSIAN_VALID =? 0) = false →
             setIsEstimateValid false tmb1 = setIsEstimateValid false tmb))
    as (tmb1 & Hownb1 & Hsame).
  { assert (∃ nb1, nodes m1 !! b = Some nb1 ∧ tree nb1 = Some tb)
      as (nb1 & Hb1 & Htb1).
    { destruct (Hdec b) as [Hr|Hr].
      - rewrite (Hin1' b Hr), Hb. eexists. split; [done|]. done.
      - rewrite (Hout1' b Hr), Hb. eauto. }
    destruct (Z.land flag IS_GAUSSIAN_VALID =? 0) eqn:EG.
    - exists tmb. split; [|done]. exists nb1. rewrite Htms1. eauto.
    - destruct (decide (ta = tb)) as [->|Hne].
      + exists (setIsEstimateValid false tma).
        destruct Howna as (? & ? & ? & Htma).
        assert (tma = tmb) as -> by congruence.
        split; [|done]. exists nb1. rewrite Htms1, lookup_insert_eq. eauto.
      + exists tmb. split; [|done].
        exists nb1. rewrite Htms1, lookup_insert_ne by done. eauto. }
  destruct (resetFlagUpToRoot_effect IS_GAUSSIAN_VALID m1 b flag lb tb tmb1
              Hlb1 Hownb1) as (m2 & Hrun2 & Hin2 & Hout2 & Htms2).
  pose proof (flagReach_after flag (nodes m) (nodes m1) a Hdec Hin1' Hout1' b)
    as Hafter.
  exists m1, m2. split; [done|]. split; [done|]. split; [|split].
  - intros c Hc. apply Hafter in Hc.
    destruct (decide (c ∈ flaggedPrefix flag (nodes m1) lb)) as [H2|H2].
    + rewrite (Hin2 c H2). destruct (Hdec c) as [Hr|Hr].
      * rewrite (Hin1' c Hr). destruct (nodes m !! c); [|done]. simpl.
        by rewrite clearFlag_clearFlag.
      * by rewrite (Hout1' c Hr).
    + rewrite (Hout2 c H2). destruct Hc as [Hr|Hr]; [by apply Hin1'|].
      exfalso. apply H2. by apply (flaggedPrefix_flagReach flag _ b lb).
  - intros c Hc.
    assert (¬ flagReach flag (nodes m) a c) as Hna by tauto.
    rewrite Hout2, Hout1' by (done || (intros H; apply Hc, Hafter; right;
      by apply (flaggedPrefix_flagReach flag _ b lb))). done.
  - rewrite Htms2, Htms1.
    destruct (Z.land flag IS_GAUSSIAN_VALID =? 0); [done|].
    by rewrite Hsame.
Qed.

(** X9. Two invalidations commute: [resetFlagUpToRoot] from [a] and then
    from [b] leaves the same store as from [b] and then from [a], for any
    two nodes of a tree and any mask. *)
Theorem resetFlagUpToRoot_commute m flag a la ta tma b lb tb tmb :
  ancestors (nodes m) a la → ancestors (nodes m) b lb →
  owner m a ta tma → owner m b tb tmb →
  ∃ ma mb mab,
    resetFlagUpToRoot IS_GAUSSIAN_VALID a flag m = Done ma ∧
    resetFlagUpToRoot IS_GAUSSIAN_VALID b flag ma = Done mab ∧
    resetFlagUpToRoot IS_GAUSSIAN_VALID b flag m = Done mb ∧
    resetFlagUpToRoot IS_GAUSSIAN_VALID a flag mb = Done mab.
Proof.
  intros Hla Hlb Howna Hownb.
  destruct (resetFlagUpToRoot_twice m flag a la ta tma b lb tb tmb
              Hla Hlb Howna Hownb)
    as (ma & mab & Hrun1 & Hrun2 & Hin & Hout & Htms).
  destruct (resetFlagUpToRoot_twice m flag b lb tb tmb a la ta tma
              Hlb Hla Hownb Howna)
    as (mb & mba & Hrun3 & Hrun4 & Hin' & Hout' & Htms').
  exists ma, mb, mab. do 3 (split; [done|]).
  rewrite Hrun4. f_equal.
  destruct mab as [hab tab], mba as [hba tba]. simpl in *. f_equal.
  - apply map_eq. intros c.
    destruct (decide (c ∈ flaggedPrefix flag (nodes m) la)) as [Ha|Ha];
      [|destruct (decide (c ∈ flaggedPrefix flag (nodes m) lb)) as [Hb|Hb]].
    + apply (flaggedPrefix_flagReach flag _ a la) in Ha; [|done].
      rewrite Hin, Hin' by tauto. done.
    + apply (flaggedPrefix_flagReach flag _ b lb) in Hb; [|done].
      rewrite Hin, Hin' by tauto. done.
    + assert (¬ flagReach flag (nodes m) a c) as Hna
        by (intros Hr; by apply Ha, (flaggedPrefix_flagReach flag _ a la)).
      assert (¬ flagReach flag (nodes m) b c) as Hnb
        by (intros Hr; by apply Hb, (flaggedPrefix_flagReach flag _ b lb)).
      rewrite Hout, Hout' by tauto. done.
  - rewrite Htms, Htms'.
    destruct (Z.land flag IS_GAUSSIAN_VALID =? 0); [done|].
    destruct (decide (ta = tb)) as [->|Hne].
    + destruct Howna as (? & ? & ? & ?), Hownb as (? & ? & ? & ?).
      by simplify_eq.
    + by apply insert_insert_ne.
Qed.

End ResetCommute.

(** ** [resetFlagUpToRoot] and the shape of the tree *)

Section ResetKeepsTree.

Variable IS_GAUSSIAN_VALID : Z.

(** X10. [resetFlagUpToRoot] keeps a well-formed tree well-formed: parent
    and child links still agree, every inner node still has two distinct
    children, no cycle appears and the parentless node is still the
    root. *)
Theorem resetFlagUpToRoot_keeps_wellFormed t this flag m m' :
  wellFormed t m →
  resetFlagUpToRoot IS_GAUSSIAN_VALID this flag m = Done m' →
  wellFormed t m'.
Proof.
  intros Hwf Hrun.
  assert ((∀ b, option_Forall2 (onlyFlagCleared flag)
             (nodes m !! b) (nodes m' !! b)) ∧
          (∀ t, option_Forall2 onlyEstimateStale
             (treemaps m !! t) (treemaps m' !! t))) as [Hn Ht].
  { revert Hrun. unfold resetFlagUpToRoot.
    destruct (nodes m !! this) as [self|]; simpl; [|done].
    destruct (resetFlagLoop _ _ _ _) as [h'| |] eqn:Hloop; simpl; try done.
    apply resetFlagLoop_statusChange in Hloop.
    assert (∀ t, option_Forall2 onlyEstimateStale
                   (treemaps m !! t) (treemaps m !! t)) as Hrefl.
    { intros t1. destruct (treemaps m !! t1); constructor.
      repeat split. by left. }
    destruct (Z.land flag IS_GAUSSIAN_VALID =? 0).
    - intros [= <-]. simpl. split; [|done].
      intros b. by apply statusChange_onlyFlagCleared.
    - destruct (tree self) as [t0|]; simpl; [|done].
      destruct (treemaps m !! t0) as [tm0|] eqn:Ht0; simpl; [|done].
      intros [= <-]. simpl. split.
      + intros b. by apply statusChange_onlyFlagCleared.
      + intros t1. destruct (decide (t0 = t1)) as [<-|?].
        * rewrite lookup_insert_eq, Ht0. constructor. repeat split. by right.
        * rewrite lookup_insert_ne by done. apply Hrefl. }
  assert (∀ a nd', nodes m' !! a = Some nd' →
            ∃ nd, nodes m !! a = Some nd ∧ onlyFlagCleared flag nd nd')
    as Hback.
  { intros a nd' Ha. pose proof (Hn a) as R. rewrite Ha in R.
    inversion R; subst. eauto. }
  assert (∀ a nd, nodes m !! a = Some nd →
            ∃ nd', nodes m' !! a = Some nd' ∧ onlyFlagCleared flag nd nd')
    as Hfwd.
  { intros a nd Ha. pose proof (Hn a) as R. rewrite Ha in R.
    inversion R; subst. eauto. }
  split.
  - intros a nd' p Ha Hp.
    destruct (Hback a nd' Ha) as (nd & Ha0 & (_ & Hpar & _)).
    destruct (wf_parent _ _ Hwf a nd p Ha0 ltac:(congruence))
      as (np & Hnp & Hc).
    destruct (Hfwd p np Hnp) as (np' & Hnp' & (_ & _ & Hc0 & Hc1 & _)).
    exists np'. split; [done|]. rewrite Hc0, Hc1. done.
  - intros a nd' c Ha Hc.
    destruct (Hback a nd' Ha) as (nd & Ha0 & (_ & _ & Hc0 & Hc1 & _)).
    rewrite Hc0, Hc1 in Hc.
    destruct (wf_child _ _ Hwf a nd c Ha0 Hc) as (nc & Hnc & Hpc).
    destruct (Hfwd c nc Hnc) as (nc' & Hnc' & (_ & Hpar & _)).
    exists nc'. split; [done|]. congruence.
  - intros a nd' c Ha Hc.
    destruct (Hback a nd' Ha) as (nd & Ha0 & (_ & _ & Hc0 & Hc1 & _)).
    rewrite Hc0 in Hc. rewrite Hc1.
    by apply (wf_distinct _ _ Hwf a nd c Ha0).
  - intros a nd' Ha.
    destruct (Hback a nd' Ha) as (nd & Ha0 & (_ & _ & Hc0 & Hc1 & _)).
    rewrite Hc0, Hc1. by apply (wf_binary _ _ Hwf a nd Ha0).
  - intros a [nd' Ha].
    destruct (Hback a nd' Ha) as (nd & Ha0 & _).
    destruct (wf_acyclic _ _ Hwf a) as [l Hl]; [eauto|].
    exists l. eapply ancestors_same_parents; [|done].
    intros b. pose proof (Hn b) as R.
    inversion R as [n1 n2 (_ & Hpar & _)|]; simpl; [|done]. by rewrite Hpar.
  - intros a nd' Ha.
    destruct (Hback a nd' Ha) as (nd & Ha0 & (_ & _ & _ & _ & Htr & _)).
    rewrite Htr. by apply (wf_owner _ _ Hwf a nd Ha0).
  - destruct (wf_root _ _ Hwf) as (tm & Htm & Hroot).
    pose proof (Ht t) as R. rewrite Htm in R.
    inversion R as [tm1 tm' (Hr & _) E1 E2|]; subst.
    exists tm'. split; [done|].
    intros a nd' Ha Hp.
    destruct (Hback a nd' Ha) as (nd & Ha0 & (_ & Hpar & _)).
    rewrite Hr. apply (Hroot a nd Ha0). congruence.
Qed.

(** X11. The loop ends on every store whose parent pointers lead to nodes,
    also when the parent links form a cycle: each pass clears the flag of
    the node it leaves, so no node is passed twice.  The call returns when
    the [tree] pointer that it follows is good. *)
Theorem resetFlagUpToRoot_returns_on_closed_store this flag m t tm :
  closed (nodes m) → owner m this t tm →
  ∃ m', resetFlagUpToRoot IS_GAUSSIAN_VALID this flag m = Done m'.
Proof.
  intros Hc (nd & Hthis & Htree & Htm).
  destruct (resetFlagLoop_returns flag (size (nodes m)) (Some this) (nodes m))
    as (h' & Hrun & _).
  - done.
  - intros a [= <-]. eauto.
  - apply flagged_size.
  - unfold resetFlagUpToRoot. rewrite Hthis. simpl. rewrite Hrun. simpl.
    destruct (Z.land flag IS_GAUSSIAN_VALID =? 0); [eauto|].
    rewrite Htree. simpl. rewrite Htm. simpl. eauto.
Qed.

End ResetKeepsTree.

(** ** One call with two flags and two calls with one flag *)

Lemma isFlag_lor A B nd :
  isFlag (Z.lor A B) nd = isFlag A nd || isFlag B nd.
Proof.
  unfold isFlag. rewrite Z.land_lor_distr_r.
  destruct (Z.eqb_spec (Z.land (status nd) A) 0) as [EA|EA];
    destruct (Z.eqb_spec (Z.land (status nd) B) 0) as [EB|EB]; simpl;
    destruct (Z.eqb_spec (Z.lor (Z.land (status nd) A) (Z.land (status nd) B)) 0)
      as [E|E]; try done.
  - rewrite EA, EB in E. done.
  - apply Z.lor_eq_0_iff in E. tauto.
  - apply Z.lor_eq_0_iff in E. tauto.
  - apply Z.lor_eq_0_iff in E. tauto.
Qed.

Lemma land_lnot_clear x B : Z.land x B = 0 → Z.land x (Z.lnot B) = x.
Proof.
  intros H. apply Z.bits_inj'. intros i Hi.
  rewrite Z.land_spec, Z.lnot_spec by done.
  apply (f_equal (λ z, Z.testbit z i)) in H.
  rewrite Z.land_spec, Z.bits_0 in H.
  destruct (Z.testbit x i), (Z.testbit B i); done.
Qed.

Lemma clearFlag_lor A B nd :
  clearFlag (Z.lor A B) nd = clearFlag B (clearFlag A nd).
Proof.
  unfold clearFlag, setStatus. simpl. f_equal.
  by rewrite Z.lnot_lor, Z.land_assoc.
Qed.

Lemma clearFlag_not_set A nd : isFlag A nd = false → clearFlag A nd = nd.
Proof.
  unfold isFlag, clearFlag, setStatus. intros H.
  apply negb_false_iff, Z.eqb_eq in H.
  rewrite (land_lnot_clear _ _ H). by destruct nd.
Qed.

Lemma isFlag_clearFlag_other A B nd :
  Z.land A B = 0 → isFlag B (clearFlag A nd) = isFlag B nd.
Proof.
  intros H. unfold isFlag. simpl. by rewrite land_clear_disjoint.
Qed.

(** The flagged prefix depends on the flag of the nodes of the chain only. *)
Lemma flaggedPrefix_ext flag (h h' : gmap addr TmNode) l :
  (∀ c, c ∈ l → isFlag flag <$> h' !! c = isFlag flag <$> h !! c) →
  flaggedPrefix flag h' l = flaggedPrefix flag h l.
Proof.
  induction l as [|a l IH]; intros Hext; simpl; [done|].
  pose proof (Hext a ltac:(left)) as Ea.
  destruct (h !! a) as [nd|], (h' !! a) as [nd'|]; simplify_eq/=; [|done].
  rewrite Ea. destruct (isFlag flag nd); [|done].
  rewrite IH; [done|]. intros c Hc. apply Hext. by right.
Qed.

(** Under the invariant the flag is set on the flagged prefix of a live
    chain and nowhere else on the chain. *)
Lemma flaggedPrefix_rest_clear flag m t a l c nc :
  live m t a l → ancestorsInvalid flag t m →
  c ∈ l → c ∉ flaggedPrefix flag (nodes m) l →
  nodes m !! c = Some nc → isFlag flag nc = false.
Proof.
  intros [Hanc Hroot] Hinv Hc Hpre Hnc.
  destruct (flaggedPrefix_split flag _ _ _ Hanc) as (rest & El & _ & Hrest).
  rewrite El in Hc. apply elem_of_app in Hc as [Hc|Hc]; [done|].
  destruct rest as [|r0 rest']; [by apply elem_of_nil in Hc|].
  destruct (ancestors_in_dom _ _ _ r0 Hanc) as [n0 Hn0].
  { rewrite El. apply elem_of_app. right. left. }
  assert (live m t r0 (r0 :: rest')) as Hlive0.
  { split; [by eapply ancestors_suffix|].
    rewrite El, last_app_cons in Hroot. done. }
  destruct (Hinv r0 (r0 :: rest') Hlive0) with (b := c)
    as (nc' & Hnc' & Hfc); [|done|].
  { exists n0. split; [done|]. by apply (Hrest r0 n0). }
  by simplify_eq.
Qed.

Lemma flaggedPrefix_set flag h a l c nc :
  ancestors h a l → c ∈ flaggedPrefix flag h l →
  h !! c = Some nc → isFlag flag nc = true.
Proof.
  intros Hanc Hc Hnc.
  destruct (flaggedPrefix_split flag _ _ _ Hanc) as (rest & El & Hset & _).
  by apply (Hset c nc).
Qed.

Section ResetTwoFlags.

Variable IS_GAUSSIAN_VALID : Z.

(** X12. For two masks [A] and [B] without a common bit, from a live node of
    a tree that satisfies the invariant for [A] and for [B]: the call with
    the mask [A | B] leaves the same store as the call with [A] followed by
    the call with [B]. *)
Theorem resetFlagUpToRoot_two_flags A B m this l t tm :
  Z.land A B = 0 →
  live m t this l → owner m this t tm →
  ancestorsInvalid A t m → ancestorsInvalid B t m →
  ∃ m1 m2,
    resetFlagUpToRoot IS_GAUSSIAN_VALID this A m = Done m1 ∧
    resetFlagUpToRoot IS_GAUSSIAN_VALID this B m1 = Done m2 ∧
    resetFlagUpToRoot IS_GAUSSIAN_VALID this (Z.lor A B) m = Done m2.
Proof.
  intros HAB Hlive Hown HinvA HinvB. pose proof Hlive as [Hanc Hroot].
  destruct (resetFlagUpToRoot_effect IS_GAUSSIAN_VALID m this A l t tm
              Hanc Hown) as (m1 & Hrun1 & Hin1 & Hout1 & Htms1).
  assert (∀ c, parent <$> nodes m1 !! c = parent <$> nodes m !! c) as Hpar.
  { intros c. destruct (decide (c ∈ flaggedPrefix A (nodes m) l)) as [H|H].
    - rewrite (Hin1 c H). by destruct (nodes m !! c).
    - by rewrite (Hout1 c H). }
  assert (ancestors (nodes m1) this l) as Hanc1
    by (by eapply ancestors_same_parents).
  assert (flaggedPrefix B (nodes m1) l = flaggedPrefix B (nodes m) l) as HPB.
  { apply flaggedPrefix_ext. intros c Hc.
    destruct (decide (c ∈ flaggedPrefix A (nodes m) l)) as [H|H].
    - rewrite (Hin1 c H). destruct (nodes m !! c); [|done]. simpl.
      by rewrite isFlag_clearFlag_other.
    - by rewrite (Hout1 c H). }
  destruct Hown as (n0 & Hthis & Htree & Htm).
  assert (∃ tm1, owner m1 this t tm1 ∧
            setIsEstimateValid false tm1 = setIsEstimateValid false tm ∧
            ((Z.land A IS_GAUSSIAN_VALID =? 0) = true → tm1 = tm))
    as (tm1 & Hown1 & Hsame & Hsame').
  { assert (∃ n1, nodes m1 !! this = Some n1 ∧ tree n1 = Some t)
      as (n1 & Hn1 & Ht1).
    { destruct (decide (this ∈ flaggedPrefix A (nodes m) l)) as [H|H].
      - rewrite (Hin1 this H), Hthis. eexists. split; [done|]. done.
      - rewrite (Hout1 this H), Hthis. eauto. }
    destruct (Z.land A IS_GAUSSIAN_VALID =? 0) eqn:EG.
    - exists tm. split; [|done]. exists n1. rewrite Htms1. eauto.
    - exists (setIsEstimateValid false tm). split; [|done].
      exists n1. rewrite Htms1, lookup_insert_eq. eauto. }
  destruct (resetFlagUpToRoot_effect IS_GAUSSIAN_VALID m1 this B l t tm1
              Hanc1 Hown1) as (m2 & Hrun2 & Hin2 & Hout2 & Htms2).
  rewrite HPB in Hin2, Hout2.
  destruct (resetFlagUpToRoot_effect IS_GAUSSIAN_VALID m this (Z.lor A B) l
              t tm Hanc (ex_intro _ n0 (conj Hthis (conj Htree Htm))))
    as (m3 & Hrun3 & Hin3 & Hout3 & Htms3).
  exists m1, m2. split; [done|]. split; [done|].
  rewrite Hrun3. f_equal.
  destruct m2 as [h2 t2], m3 as [h3 t3]. simpl in *. f_equal.
  - apply map_eq. intros c.
    destruct (decide (c ∈ l)) as [Hcl|Hcl].
    2: { rewrite Hout3, Hout2, Hout1; [done|..];
         intros H%flaggedPrefix_sub; done. }
    destruct (ancestors_in_dom _ _ _ c Hanc Hcl) as [nc Hnc].
    assert (c ∈ flaggedPrefix (Z.lor A B) (nodes m) l ↔
            c ∈ flaggedPrefix A (nodes m) l ∨ c ∈ flaggedPrefix B (nodes m) l)
      as Hiff.
    { rewrite !(flaggedPrefix_flagReach _ _ this l) by done. split.
      - intros Hr.
        assert (isFlag (Z.lor A B) nc = true) as Hf.
        { inversion Hr; simplify_eq; [done|].
          eapply (flaggedPrefix_set (Z.lor A B) (nodes m) this l c);
            [done| |done].
          by apply (flaggedPrefix_flagReach _ _ this l). }
        rewrite isFlag_lor in Hf. apply orb_true_iff in Hf as [Hf|Hf].
        + left. apply (flaggedPrefix_flagReach _ _ this l); [done|].
          destruct (decide (c ∈ flaggedPrefix A (nodes m) l)); [done|].
          rewrite (flaggedPrefix_rest_clear A m t this l c nc) in Hf; done.
        + right. apply (flaggedPrefix_flagReach _ _ this l); [done|].
          destruct (decide (c ∈ flaggedPrefix B (nodes m) l)); [done|].
          rewrite (flaggedPrefix_rest_clear B m t this l c nc) in Hf; done.
      - assert (∀ F x, (∀ nd, isFlag F nd = true →
                               isFlag (Z.lor A B) nd = true) →
                  flagReach F (nodes m) x c →
                  flagReach (Z.lor A B) (nodes m) x c) as Hmono.
        { intros F x HF. induction 1; [econstructor 1|econstructor 2]; eauto. }
        intros [Hr|Hr]; (eapply Hmono; [|done]); intros nd Hf;
          rewrite isFlag_lor, Hf; [done|apply orb_true_r]. }
    destruct (decide (c ∈ flaggedPrefix A (nodes m) l)) as [HA|HA];
      destruct (decide (c ∈ flaggedPrefix B (nodes m) l)) as [HB|HB].
    + rewrite Hin3 by tauto. rewrite Hin2, Hin1, Hnc by done. simpl.
      by rewrite clearFlag_lor.
    + rewrite Hin3 by tauto. rewrite Hout2, Hin1, Hnc by done. simpl.
      rewrite clearFlag_lor. f_equal. apply clearFlag_not_set.
      rewrite isFlag_clearFlag_other by done.
      by apply (flaggedPrefix_rest_clear B m t this l c nc).
    + rewrite Hin3 by tauto. rewrite Hin2, Hout1, Hnc by done. simpl.
      rewrite clearFlag_lor. do 2 f_equal. apply clearFlag_not_set.
      by apply (flaggedPrefix_rest_clear A m t this l c nc).
    + rewrite Hout3 by tauto. by rewrite Hout2, Hout1.
  - rewrite Htms3, Htms2, Htms1. rewrite Z.land_lor_distr_l.
    destruct (Z.eqb_spec (Z.land A IS_GAUSSIAN_VALID) 0) as [EA|EA];
      destruct (Z.eqb_spec (Z.land B IS_GAUSSIAN_VALID) 0) as [EB|EB].
    + by rewrite EA, EB.
    + rewrite EA, Z.lor_0_l. rewrite (proj2 (Z.eqb_neq _ _) EB).
      by rewrite (Hsame' eq_refl).
    + rewrite EB, Z.lor_0_r. by rewrite (proj2 (Z.eqb_neq _ _) EA).
    + assert (Z.lor (Z.land A IS_GAUSSIAN_VALID) (Z.land B IS_GAUSSIAN_VALID)
              ≠ 0) as E by (intros E%Z.lor_eq_0_iff; tauto).
      rewrite (proj2 (Z.eqb_neq _ _) E).
      by rewrite Hsame, insert_insert_eq.
Qed.

End ResetTwoFlags.

(** ** The further properties on the example tree

    [IS_FEATURE_PASSED_VALID = 1], [IS_GAUSSIAN_VALID = 2]. *)

Lemma exampleNodes_ancestors_6 s1 s2 s3 s4 s5 s6 s7 :
  ancestors (exampleNodes s1 s2 s3 s4 s5 s6 s7) 6%nat [6; 3; 1]%nat.
Proof.
  econstructor 2; [reflexivity|reflexivity|].
  econstructor 2; [reflexivity|reflexivity|].
  econstructor 1; reflexivity.
Defined.

Lemma exampleMemory_live_6 s1 s2 s3 s4 s5 s6 s7 :
  live (exampleMemory s1 s2 s3 s4 s5 s6 s7) 0%nat 6%nat [6; 3; 1]%nat.
Proof.
  split; [apply exampleNodes_ancestors_6|].
  exists exampleTreemap. split; reflexivity.
Defined.

Lemma exampleMemory_owner_6 s1 s2 s3 s4 s5 s6 s7 :
  owner (exampleMemory s1 s2 s3 s4 s5 s6 s7) 6%nat 0%nat exampleTreemap.
Proof. eexists. split; [reflexivity|]. split; reflexivity. Defined.

(** Where every node has both flags the invariant holds for both. *)
Lemma example_all_valid_ancestorsInvalid :
  ancestorsInvalid 1 0%nat (exampleMemory 7 7 7 7 7 7 7) ∧
  ancestorsInvalid 2 0%nat (exampleMemory 7 7 7 7 7 7 7).
Proof.
  split; intros a l [Hanc _] (na & Ha & Hf) b Hb;
    example_cases Ha; vm_compute in Hf; discriminate.
Qed.

Lemma example_reset_run :
  resetFlagUpToRoot 2 4%nat 2 (exampleMemory 1 3 3 3 3 3 3) =
  Done exampleResetMemory.
Proof. vm_compute. reflexivity. Defined.

Lemma resetFlagUpToRoot_only_clears_flag_witness :
  (∀ b, option_Forall2 (onlyFlagCleared 2)
          (nodes (exampleMemory 1 3 3 3 3 3 3) !! b)
          (nodes exampleResetMemory !! b)) ∧
  (∀ t, option_Forall2 onlyEstimateStale
          (treemaps (exampleMemory 1 3 3 3 3 3 3) !! t)
          (treemaps exampleResetMemory !! t)).
Proof.
  apply (resetFlagUpToRoot_only_clears_flag 2 4%nat 2
           (exampleMemory 1 3 3 3 3 3 3) exampleResetMemory).
  apply example_reset_run.
Defined.

Lemma resetFlagUpToRoot_idempotent_witness :
  resetFlagUpToRoot 2 4%nat 2 exampleResetMemory = Done exampleResetMemory.
Proof.
  apply (resetFlagUpToRoot_idempotent 2 4%nat 2 (exampleMemory 1 3 3 3 3 3 3)).
  apply example_reset_run.
Defined.

Lemma resetFlagUpToRoot_invalidates_up_to_root_witness :
  ∃ m', resetFlagUpToRoot 2 6%nat 2 (exampleMemory 5 5 7 5 7 7 7) = Done m' ∧
    ∀ b, b ∈ [6; 3; 1]%nat →
      ∃ nb, nodes m' !! b = Some nb ∧ isFlag 2 nb = false.
Proof.
  apply (resetFlagUpToRoot_invalidates_up_to_root 2
           (exampleMemory 5 5 7 5 7 7 7) 6%nat 2 [6; 3; 1]%nat 0%nat 0%nat
           exampleTreemap).
  - apply exampleMemory_live_6.
  - apply exampleMemory_owner_6.
  - apply example_ancestorsInvalid.
Defined.

Lemma isFeaturePassedValid_false_after_reset_witness :
  ∃ m', resetFlagUpToRoot 2 6%nat 1 (exampleMemory 5 5 7 5 7 7 7) = Done m' ∧
    isFeaturePassedValid 1 0%nat m' = Done false.
Proof.
  apply (isFeaturePassedValid_false_after_reset 1 2
           (exampleMemory 5 5 7 5 7 7 7) 6%nat [6; 3; 1]%nat 0%nat 0%nat
           exampleTreemap).
  - apply exampleMemory_live_6.
  - apply exampleMemory_owner_6.
  - apply example_ancestorsInvalid.
Defined.

Lemma isGaussianValid_false_after_reset_witness :
  ∃ m' tm',
    resetFlagUpToRoot 2 6%nat 2 (exampleMemory 7 7 7 7 7 7 7) = Done m' ∧
    isGaussianValid 2 0%nat m' = Done false ∧
    treemaps m' !! 0%nat = Some tm' ∧ isEstimateValid tm' = false.
Proof.
  apply (isGaussianValid_false_after_reset 2
           (exampleMemory 7 7 7 7 7 7 7) 6%nat [6; 3; 1]%nat 0%nat
           exampleTreemap).
  - lia.
  - apply exampleMemory_live_6.
  - apply exampleMemory_owner_6.
  - apply example_all_valid_ancestorsInvalid.
Defined.

Lemma isFeaturePassedValid_true_all_live_witness :
  ∃ na, nodes (exampleMemory 5 5 7 5 7 7 7) !! 6%nat = Some na ∧
    isFlag 1 na = true.
Proof.
  eexists. split; [reflexivity|].
  apply (isFeaturePassedValid_true_all_live 1
           (exampleMemory 5 5 7 5 7 7 7) 0%nat) with (a := 6%nat)
           (l := [6; 3; 1]%nat).
  - apply example_ancestorsInvalid.
  - reflexivity.
  - apply exampleMemory_live_6.
  - reflexivity.
Defined.

Lemma isGaussianValid_true_all_live_witness :
  (∃ tm, treemaps (exampleMemory 7 7 7 7 7 7 7) !! 0%nat = Some tm ∧
     isGaussianValidValid tm = true) ∧
  ∃ na, nodes (exampleMemory 7 7 7 7 7 7 7) !! 6%nat = Some na ∧
    isFlag 2 na = true.
Proof.
  destruct (isGaussianValid_true_all_live 2
              (exampleMemory 7 7 7 7 7 7 7) 0%nat) as [Htm Hall].
  - apply example_all_valid_ancestorsInvalid.
  - reflexivity.
  - split; [exact Htm|].
    eexists. split; [reflexivity|].
    apply (Hall 6%nat [6; 3; 1]%nat); [apply exampleMemory_live_6|reflexivity].
Defined.

Lemma getNode_not_null_in_range_witness :
  0 <= 2 < Z.of_nat (length (node exampleTreemap)) ∧
  node exampleTreemap !! Z.to_nat 2 = Some (Some 3%nat).
Proof.
  apply (getNode_not_null_in_range exampleTreemap 2 3%nat).
  reflexivity.
Defined.

(** Both flags are reset from the leaves [4] and [6]. *)
Lemma resetFlagUpToRoot_commute_witness :
  ∃ ma mb mab,
    resetFlagUpToRoot 2 4%nat 3 (exampleMemory 7 7 7 7 7 7 7) = Done ma ∧
    resetFlagUpToRoot 2 6%nat 3 ma = Done mab ∧
    resetFlagUpToRoot 2 6%nat 3 (exampleMemory 7 7 7 7 7 7 7) = Done mb ∧
    resetFlagUpToRoot 2 4%nat 3 mb = Done mab.
Proof.
  apply (resetFlagUpToRoot_commute 2 (exampleMemory 7 7 7 7 7 7 7) 3
           4%nat [4; 2; 1]%nat 0%nat exampleTreemap
           6%nat [6; 3; 1]%nat 0%nat exampleTreemap).
  - apply exampleNodes_ancestors_4.
  - apply exampleNodes_ancestors_6.
  - apply exampleMemory_owner.
  - apply exampleMemory_owner_6.
Defined.

Lemma resetFlagUpToRoot_keeps_wellFormed_witness :
  wellFormed 0%nat exampleResetMemory.
Proof.
  apply (resetFlagUpToRoot_keeps_wellFormed 2 0%nat 4%nat 2
           (exampleMemory 1 3 3 3 3 3 3)).
  - apply exampleMemory_wellFormed.
  - apply example_reset_run.
Defined.

Lemma cyclicMemory_closed st : closed (nodes (cyclicMemory st)).
Proof.
  intros a nd p Ha Hp. unfold cyclicMemory in *. simpl in *.
  destruct (decide (1%nat = a)) as [<-|?];
    [rewrite lookup_insert_eq in Ha; injection Ha as <-|
     rewrite lookup_insert_ne in Ha by done;
     destruct (decide (2%nat = a)) as [<-|?];
     [rewrite lookup_insert_eq in Ha; injection Ha as <-|
      rewrite lookup_insert_ne in Ha by done;
      by rewrite lookup_empty in Ha]];
    simpl in Hp; injection Hp as <-; eexists; reflexivity.
Qed.

(** Nodes [1] and [2] are each other's parent and both have the flag. *)
Lemma resetFlagUpToRoot_returns_on_closed_store_witness :
  ∃ m', resetFlagUpToRoot 2 1%nat 2 (cyclicMemory 3) = Done m'.
Proof.
  apply (resetFlagUpToRoot_returns_on_closed_store 2 1%nat 2 (cyclicMemory 3)
           0%nat (mkTreemap None [Some 1; Some 2]%nat [] true true)).
  - apply cyclicMemory_closed.
  - eexists. split; [reflexivity|]. split; reflexivity.
Defined.

(** Both flags are reset from leaf [6] of the tree in which leaf [4], its
    parent and the root have lost [IS_GAUSSIAN_VALID] already. *)
Lemma resetFlagUpToRoot_two_flags_witness :
  ∃ m1 m2,
    resetFlagUpToRoot 2 6%nat 1 (exampleMemory 5 5 7 5 7 7 7) = Done m1 ∧
    resetFlagUpToRoot 2 6%nat 2 m1 = Done m2 ∧
    resetFlagUpToRoot 2 6%nat (Z.lor 1 2) (exampleMemory 5 5 7 5 7 7 7) =
      Done m2.
Proof.
  apply (resetFlagUpToRoot_two_flags 2 1 2 (exampleMemory 5 5 7 5 7 7 7)
           6%nat [6; 3; 1]%nat 0%nat exampleTreemap).
  - reflexivity.
  - apply exampleMemory_live_6.
  - apply exampleMemory_owner_6.
  - apply example_ancestorsInvalid.
  - apply example_ancestorsInvalid.
Defined.
